(** * split_md_by_size.py: the record splitter and the size-bounded chunker

    A shallow embedding of [src/split_md_by_size.py].  A Python [str] is a
    sequence of Unicode code points, a Python [int] is a [Z], and the one
    exception the chunking code can raise ([UnicodeEncodeError], from
    [str.encode]) is carried by a small error monad.  The two library
    services the script leans on, [str.splitlines] and the [re] matcher, are
    modelled by their documented behaviour on the constructs the script
    uses. *)

From Stdlib Require Import String Ascii.
From Stdlib Require Import List ZArith NArith Lia Bool Arith.
From Stdlib Require Import Sorting.Sorted Sorting.Permutation.
Import ListNotations.

Local Open Scope Z_scope.

(* ------------------------------------------------------------------ *)
(** ** Text *)

Module Text.

(** A code point is a natural number, a [str] a list of code points. *)
Abbreviation codepoint := N (only parsing).
Abbreviation str := (list N) (only parsing).

Definition LF : codepoint := 10%N.
Definition CR : codepoint := 13%N.

(** A Python literal: the escapes [\n], [\r] and [\\] are read the way Python
    reads them, every other character stands for itself. *)
Fixpoint py (s : string) : str :=
  match s with
  | EmptyString => []
  | String "\" (String "n" t) => LF :: py t
  | String "\" (String "r" t) => CR :: py t
  | String "\" (String "\" t) => N_of_ascii "\" :: py t
  | String c t => N_of_ascii c :: py t
  end.

(** [bool(s)]: a string is truthy when it is not empty. *)
Definition truthy (s : str) : bool :=
  match s with [] => false | _ :: _ => true end.

(** [len(s)] *)
Definition len (s : str) : Z := Z.of_nat (length s).

(** [s.startswith(p)] *)
Fixpoint startswith (s p : str) : bool :=
  match p, s with
  | [], _ => true
  | _ :: _, [] => false
  | a :: p', b :: s' => N.eqb a b && startswith s' p'
  end.

(** [s.endswith("\n")] *)
Definition endswith_LF (s : str) : bool :=
  match rev s with
  | c :: _ => N.eqb c LF
  | [] => false
  end.

(** Slice bounds as Python normalises them: a negative index counts from the
    end, and the result is clamped to [0, len]. *)
Definition clamp (n i : Z) : Z :=
  if i <? 0 then Z.max 0 (i + n) else Z.min i n.

(** [s[a:b]] *)
Definition slice (s : str) (a b : Z) : str :=
  let a' := clamp (len s) a in
  let b' := clamp (len s) b in
  firstn (Z.to_nat (b' - a')) (skipn (Z.to_nat a') s).

(** [s or ""] *)
Definition or_empty (s : str) : str := if truthy s then s else [].

(** Line boundaries of [str.splitlines]: LF, VT, FF, CR, FS, GS, RS, NEL,
    LINE SEPARATOR and PARAGRAPH SEPARATOR. *)
Definition is_linebreak (c : codepoint) : bool :=
  (N.leb 10 c && N.leb c 13) || (N.leb 28 c && N.leb c 30)
  || N.eqb c 133 || N.eqb c 8232 || N.eqb c 8233.

(** Unicode white space, the class [\s] of a [str] pattern. *)
Definition is_space (c : codepoint) : bool :=
  (N.leb 9 c && N.leb c 13) || (N.leb 28 c && N.leb c 32)
  || N.eqb c 133 || N.eqb c 160 || N.eqb c 5760
  || (N.leb 8192 c && N.leb c 8202)
  || N.eqb c 8232 || N.eqb c 8233 || N.eqb c 8239 || N.eqb c 8287
  || N.eqb c 12288.

(** [s.splitlines(keepends=True)]: every line keeps its terminator, CR LF
    counts as one terminator, and a last line without terminator is kept
    when it is not empty. *)
Fixpoint splitlines (s : str) : list str :=
  match s with
  | [] => []
  | c :: t =>
      if is_linebreak c then
        match t with
        | d :: t' =>
            if N.eqb c CR && N.eqb d LF then [c; d] :: splitlines t'
            else [c] :: splitlines t
        | [] => [[c]]
        end
      else
        match splitlines t with
        | [] => [[c]]
        | l :: ls => (c :: l) :: ls
        end
  end.

End Text.
Import Text.

(* ------------------------------------------------------------------ *)
(** ** Exceptions *)

Inductive exn : Type := UnicodeEncodeError.

Inductive result (A : Type) : Type :=
| Ok (a : A)
| Raise (e : exn).
Arguments Ok {A} a.
Arguments Raise {A} e.

Definition bind {A B} (m : result A) (k : A -> result B) : result B :=
  match m with
  | Ok a => k a
  | Raise e => Raise e
  end.

Notation "'let*' x ':=' m 'in' k" := (bind m (fun x => k))
  (at level 10, x name, m at level 100, k at level 200).

(** A [for] loop whose body may raise. *)
Fixpoint for_each {A S} (body : S -> A -> result S) (xs : list A) (s : S)
  : result S :=
  match xs with
  | [] => Ok s
  | x :: xs' => let* s' := body s x in for_each body xs' s'
  end.

(* ------------------------------------------------------------------ *)
(** ** UTF-8 *)

Module Utf8.

Definition is_surrogate (c : codepoint) : bool :=
  N.leb 55296 c && N.leb c 57343.

(** The strict UTF-8 encoder on one code point. *)
Definition encode_char (c : codepoint) : result (list N) :=
  if N.ltb c 128 then Ok [c]
  else if N.ltb c 2048 then
    Ok [N.lor 192 (N.shiftr c 6); N.lor 128 (N.land c 63)]
  else if is_surrogate c then Raise UnicodeEncodeError
  else if N.ltb c 65536 then
    Ok [N.lor 224 (N.shiftr c 12);
        N.lor 128 (N.land (N.shiftr c 6) 63);
        N.lor 128 (N.land c 63)]
  else
    Ok [N.lor 240 (N.shiftr c 18);
        N.lor 128 (N.land (N.shiftr c 12) 63);
        N.lor 128 (N.land (N.shiftr c 6) 63);
        N.lor 128 (N.land c 63)].

(** [s.encode("utf-8")] *)
Fixpoint encode (s : str) : result (list N) :=
  match s with
  | [] => Ok []
  | c :: t =>
      let* b := encode_char c in
      let* bs := encode t in
      Ok (b ++ bs)
  end.

(** A string [encode] accepts: one without surrogate code points.  A
    document decoded from UTF-8 holds none. *)
Definition encodable (s : str) : Prop :=
  Forall (fun c => is_surrogate c = false) s.

(** Number of bytes the encoder writes for one code point. *)
Definition width (c : codepoint) : Z :=
  if N.ltb c 128 then 1
  else if N.ltb c 2048 then 2
  else if N.ltb c 65536 then 3
  else 4.

(** Encoded size of a string, as a sum over its code points. *)
Fixpoint size (s : str) : Z :=
  match s with
  | [] => 0
  | c :: t => width c + size t
  end.

End Utf8.
Import Utf8.

(* ------------------------------------------------------------------ *)
(** ** The chunker *)

(** [utf8_len], lines 11-12. *)
Definition utf8_len (s : str) : result Z :=
  let* b := encode s in Ok (Z.of_nat (length b)).

(** The three variables [chunk_records_by_size] and its closure
    [push_current] share. *)
Record acc : Type := Acc {
  chunks : list str;
  cur : str;
  cur_bytes : Z
}.

Definition acc0 : acc := Acc [] [] 0.

(** [push_current], lines 58-63. *)
Definition push_current (a : acc) : acc :=
  if truthy (cur a) then Acc (chunks a ++ [cur a]) [] 0 else a.

(** The variables of the line loop, lines 73-82: the output list, [part]
    and [part_b]. *)
Record parts : Type := Parts {
  out : list str;
  part : str;
  part_b : Z
}.

(** Body of [for ln in lines], lines 76-82. *)
Definition line_step (max_bytes : Z) (p : parts) (ln : str) : result parts :=
  let* ln_b := utf8_len ln in
  let p1 :=
    if (part_b p + ln_b >? max_bytes) && truthy (part p)
    then Parts (out p ++ [part p]) [] 0
    else p in
  Ok (Parts (out p1) (part p1 ++ ln) (part_b p1 + ln_b)).

(** The oversized-record branch after [push_current()], lines 72-84: the
    chunk list with the sub-chunks of [rec] appended. *)
Definition split_oversized (max_bytes : Z) (chunks0 : list str) (rec : str)
  : result (list str) :=
  let lines := splitlines rec in
  let* p := for_each (line_step max_bytes) lines (Parts chunks0 [] 0) in
  Ok (if truthy (part p) then out p ++ [part p] else out p).

(** Body of [for rec in records], lines 66-92. *)
Definition record_step (max_bytes : Z) (a : acc) (rec : str) : result acc :=
  let* rec_b := utf8_len rec in
  if rec_b >? max_bytes then
    let a1 := push_current a in
    let* cs := split_oversized max_bytes (chunks a1) rec in
    Ok (Acc cs (cur a1) (cur_bytes a1))
  else
    let a1 :=
      if (cur_bytes a + rec_b >? max_bytes) && truthy (cur a)
      then push_current a
      else a in
    Ok (Acc (chunks a1) (cur a1 ++ rec) (cur_bytes a1 + rec_b)).

(** [chunk_records_by_size], lines 53-95. *)
Definition chunk_records_by_size (records : list str) (max_bytes : Z)
  : result (list str) :=
  let* a := for_each (record_step max_bytes) records acc0 in
  Ok (chunks (push_current a)).

(* ------------------------------------------------------------------ *)
(** ** The pattern matcher *)

(** The fragment of Python's [re] the script uses: literals, [\s], [^]
    under [(?m)], concatenation, a greedy [c{n,}] on one character, the
    capturing group 1 and a look-ahead.  Matching is by backtracking, as in
    [re]: a continuation stands for the remainder of the pattern. *)
Module Re.

Inductive regex : Type :=
| Eps
| Chr (c : codepoint)
| Space
| Bol
| Cat (r1 r2 : regex)
| AtLeast (n : nat) (c : codepoint)
| Group (r : regex)
| Ahead (r : regex).

(** A run of literal characters. *)
Definition Lit (s : str) : regex := fold_right (fun c r => Cat (Chr c) r) Eps s.

(** End position and start of group 1 (when the group took part). *)
Definition outcome : Type := (nat * option nat)%type.

(** Number of leading occurrences of [c]. *)
Fixpoint run (c : codepoint) (s : str) : nat :=
  match s with
  | d :: t => if N.eqb c d then S (run c t) else O
  | [] => O
  end.

(** Greedy repetition: the longest count first, then one fewer, down to the
    minimum [lo]. *)
Fixpoint backoff (k : nat -> option outcome) (lo n : nat) : option outcome :=
  if Nat.ltb n lo then None
  else
    match k n with
    | Some r => Some r
    | None =>
        match n with
        | O => None
        | S n' => backoff k lo n'
        end
    end.

(** [^] under [(?m)]: at the start of the string or after a newline. *)
Definition at_bol (s : str) (i : nat) : bool :=
  match i with
  | O => true
  | S j => match nth_error s j with Some c => N.eqb c LF | None => false end
  end.

Fixpoint exec (r : regex) (s : str) (i : nat) (g : option nat)
  (k : nat -> option nat -> option outcome) : option outcome :=
  match r with
  | Eps => k i g
  | Chr c =>
      match nth_error s i with
      | Some d => if N.eqb c d then k (S i) g else None
      | None => None
      end
  | Space =>
      match nth_error s i with
      | Some d => if is_space d then k (S i) g else None
      | None => None
      end
  | Bol => if at_bol s i then k i g else None
  | Cat r1 r2 => exec r1 s i g (fun j g' => exec r2 s j g' k)
  | AtLeast lo c =>
      backoff (fun n => k (i + n)%nat g) lo (run c (skipn i s))
  | Group r1 => exec r1 s i g (fun j _ => k j (Some i))
  | Ahead r1 =>
      match exec r1 s i g (fun j g' => Some (j, g')) with
      | Some (_, g') => k i g'
      | None => None
      end
  end.

(** A match attempt anchored at position [i]. *)
Definition match_at (r : regex) (s : str) (i : nat) : option outcome :=
  exec r s i None (fun j g => Some (j, g)).

(** [re.match(r, s)] *)
Definition re_match (r : regex) (s : str) : option outcome := match_at r s O.

(** A match object: [m.start()], [m.end()] and group 1. *)
Record mobj : Type := Mobj {
  m_start : nat;
  m_end : nat;
  m_group1 : option nat
}.

(** [m.start(1)]: -1 when group 1 took no part in the match. *)
Definition start1 (m : mobj) : Z :=
  match m_group1 m with
  | Some i => Z.of_nat i
  | None => -1
  end.

(** The scan of [finditer]: the leftmost match from [pos], then on from its
    end (one further after an empty match).  [fuel] bounds the number of
    positions tried; [pos] grows at every step. *)
Fixpoint scan (fuel : nat) (r : regex) (s : str) (pos : nat) : list mobj :=
  match fuel with
  | O => []
  | S f =>
      if Nat.ltb (length s) pos then []
      else
        match match_at r s pos with
        | Some (e, g) =>
            Mobj pos e g :: scan f r s (if Nat.eqb e pos then S pos else e)
        | None => scan f r s (S pos)
        end
  end.

(** [r.finditer(s)], as the list of its matches. *)
Definition finditer (r : regex) (s : str) : list mobj :=
  scan (S (length s)) r s O.

End Re.
Import Re.

(* ------------------------------------------------------------------ *)
(** ** Record boundaries *)

(** [sorted] on integers. *)
Fixpoint insert (x : Z) (l : list Z) : list Z :=
  match l with
  | [] => [x]
  | y :: t => if x <=? y then x :: l else y :: insert x t
  end.

Definition sorted (l : list Z) : list Z := fold_right insert [] l.

(** What [set(l)] may hand to [sorted]: the distinct elements of [l], in an
    order the language leaves open. *)
Definition set_iteration (iter : list Z -> list Z) : Prop :=
  forall l, Permutation (iter l) (nodup Z.eq_dec l).

(** [r"(?m)^id:\s"], line 30. *)
Definition head_pat : regex := Cat Bol (Cat (Lit (py "id:")) Space).

(** [r"\n{2,}(---\n(?=id:\s))"], line 34. *)
Definition boundary_pat : regex :=
  Cat (AtLeast 2 LF)
      (Group (Cat (Lit (py "---\n")) (Ahead (Cat (Lit (py "id:")) Space)))).

Definition is_some {A} (o : option A) : bool :=
  match o with Some _ => true | None => false end.

(** [find_record_starts], lines 14-39, for a given iteration order of
    [set]. *)
Definition find_record_starts_with (iter : list Z -> list Z) (md : str)
  : list Z :=
  let starts := [] in
  let starts :=
    if startswith md (py "---\n")
       && is_some (re_match head_pat (or_empty (slice md 4 80)))
    then starts ++ [0]
    else starts in
  let starts := starts ++ map start1 (finditer boundary_pat md) in
  sorted (iter starts).

Definition find_record_starts (md : str) : list Z :=
  find_record_starts_with (nodup Z.eq_dec) md.

(** [enumerate(l)] *)
Definition enumerate {A} (l : list A) : list (nat * A) :=
  combine (seq 0 (length l)) l.

(** The loop of [split_into_records], lines 47-51, over given [starts]. *)
Definition slice_records (md : str) (starts : list Z) : list str :=
  map (fun '(i, st) =>
         let end_ :=
           if Nat.ltb (i + 1) (length starts)
           then nth (i + 1) starts 0
           else len md in
         slice md st end_)
      (enumerate starts).

(** [split_into_records], lines 41-51. *)
Definition split_into_records_with (iter : list Z -> list Z) (md : str)
  : list str :=
  let starts := find_record_starts_with iter md in
  match starts with
  | [] => [md]
  | _ :: _ => slice_records md starts
  end.

Definition split_into_records (md : str) : list str :=
  split_into_records_with (nodup Z.eq_dec) md.

(* ------------------------------------------------------------------ *)
(** ** The run of [main] *)

(** Lines 112-113: the chunks of a document. *)
Definition chunks_of_with (iter : list Z -> list Z) (md : str) (max_bytes : Z)
  : result (list str) :=
  chunk_records_by_size (split_into_records_with iter md) max_bytes.

Definition chunks_of (md : str) (max_bytes : Z) : result (list str) :=
  chunk_records_by_size (split_into_records md) max_bytes.

(** Lines 129-131: the text written to a part file. *)
Definition written (content : str) : str :=
  if negb (endswith_LF content) then content ++ [LF] else content.

(** The contents of the part files, in the order they are written. *)
Definition part_files (md : str) (max_bytes : Z) : result (list str) :=
  let* cs := chunks_of md max_bytes in Ok (map written cs).

(** The document of the boundary example. *)
Definition doc2 : str := py "---\nid: 1\nfoo\n\n\n---\nid: 2\nbar\n".

(* ------------------------------------------------------------------ *)
(** ** Vocabulary of the statements *)

(** [c] encodes to at most [max_bytes] bytes. *)
Definition fits (max_bytes : Z) (c : str) : Prop :=
  exists n, utf8_len c = Ok n /\ n <= max_bytes.

(** [c] encodes to more than [max_bytes] bytes. *)
Definition oversized (max_bytes : Z) (c : str) : Prop :=
  exists n, utf8_len c = Ok n /\ max_bytes < n.

(** A group of consecutive lines that the line loop may emit as one
    sub-chunk: it fits the budget, or it is one line that does not. *)
Definition line_group (max_bytes : Z) (g : list str) : Prop :=
  g <> [] /\
  (fits max_bytes (concat g) \/ exists ln, g = [ln] /\ oversized max_bytes ln).

(** The code point at offset [q], when [q] is an offset of [md]. *)
Definition char_at (md : str) (q : Z) : option codepoint :=
  if q <? 0 then None else nth_error md (Z.to_nat q).

(** The character [c] stands at index [i] of [s]. *)
Definition chr_at (s : str) (i : nat) (c : codepoint) : bool :=
  match nth_error s i with Some d => N.eqb c d | None => false end.

(** A white-space character stands at index [i] of [s]. *)
Definition space_at (s : str) (i : nat) : bool :=
  match nth_error s i with Some d => is_space d | None => false end.

(** The record-header marker at index [i], as a test. *)
Definition header_atb (md : str) (i : nat) : bool :=
  startswith (skipn i md) (py "---\nid:") && space_at md (i + 7).

(** Index [q] carries a marker and the two characters before it are
    newlines. *)
Definition boundaryb (md : str) (q : nat) : bool :=
  Nat.leb 2 q && chr_at md (q - 2) LF && chr_at md (q - 1) LF
  && header_atb md q.

(** The records of [slice_records], by recursion on the list of starts:
    each record runs to the next start, the last one to the end. *)
Fixpoint records_from (md : str) (starts : list Z) : list str :=
  match starts with
  | [] => []
  | st :: rest =>
      slice md st (match rest with e :: _ => e | [] => len md end)
        :: records_from md rest
  end.

(** A record-header marker at offset [q]: the delimiter line [---], then
    the field [id:] and one white-space character. *)
Definition header_at (md : str) (q : Z) : Prop :=
  0 <= q /\
  startswith (skipn (Z.to_nat q) md) (py "---\nid:") = true /\
  exists c, char_at md (q + 7) = Some c /\ is_space c = true.

(** The line that ends just before offset [q] is blank: a newline at
    [q - 1] that opens the document or follows another newline. *)
Definition blank_line_before (md : str) (q : Z) : Prop :=
  char_at md (q - 1) = Some LF /\
  (q = 1 \/ char_at md (q - 2) = Some LF).

(** Offset [q] comes right after two blank lines. *)
Definition two_blank_lines_before (md : str) (q : Z) : Prop :=
  blank_line_before md q /\ blank_line_before md (q - 1).

(** The rule of the boundary detector with blank lines in the place of
    newline characters. *)
Definition blank_line_rule (md : str) : Prop :=
  forall q : Z,
    In q (find_record_starts md) <->
    (q = 0 /\ header_at md 0)
    \/ (two_blank_lines_before md q /\ header_at md q).

(** Exactly one newline closes [s]: [s] ends with a newline, and [s]
    without its last character does not. *)
Definition one_trailing_LF (s : str) : Prop :=
  endswith_LF s = true /\ endswith_LF (removelast s) = false.

(** A chunk the chunker may emit for [records]: it is not empty, and it
    fits the budget unless it is one line, itself over the budget, of a
    record that is over the budget. *)
Definition chunk_ok (max_bytes : Z) (records : list str) (c : str) : Prop :=
  c <> [] /\
  (fits max_bytes c \/
   (oversized max_bytes c /\
    exists rec, In rec records /\ oversized max_bytes rec
                /\ In c (splitlines rec))).

(** What the record loop keeps true of its variables: [cur_bytes] is the
    encoded size of [cur], and a non-empty [cur] fits the budget. *)
Definition acc_inv (max_bytes : Z) (a : acc) : Prop :=
  cur_bytes a = size (cur a) /\ encodable (cur a)
  /\ (cur a <> [] -> size (cur a) <= max_bytes).

(* ------------------------------------------------------------------ *)
(** ** Further vocabulary *)

(** [s.endswith(p)] *)
Definition endswith (s p : str) : bool := startswith (rev s) (rev p).

(** A start [find_record_starts] may report: a marker stands there, at
    offset 0 or right after two newlines. *)
Definition start_ok (md : str) (q : Z) : Prop :=
  header_at md q
  /\ (q = 0 \/ (char_at md (q - 2) = Some LF /\ char_at md (q - 1) = Some LF)).

(** [r] lies whole inside [c]. *)
Definition infix (r c : str) : Prop := exists a b, c = a ++ r ++ b.

(** [r] is held whole by the loop variables: inside a finished chunk or
    inside the accumulator. *)
Definition held (a : acc) (r : str) : Prop :=
  (exists c, In c (chunks a) /\ infix r c) \/ infix r (cur a).

(** Consecutive groups of records packed greedily: no group could have
    taken the first record of the group that follows it. *)
Fixpoint greedy_chain (max_bytes : Z) (gs : list (list str)) : Prop :=
  match gs with
  | g :: rest =>
      match rest with
      | g' :: _ => ~ fits max_bytes (concat g ++ hd [] g')
      | [] => True
      end
      /\ greedy_chain max_bytes rest
  | [] => True
  end.

(* ------------------------------------------------------------------ *)
(** ** The part files of [main] *)

(** The decimal digit [d]. *)
Definition digit (d : nat) : codepoint := N.of_nat (48 + d).

(** [str(n)] for an integer [n >= 0], most significant digit first;
    [fuel] bounds the number of digits. *)
Fixpoint digits_fuel (fuel n : nat) : str :=
  match fuel with
  | O => []
  | S f =>
      if Nat.ltb n 10 then [digit n]
      else digits_fuel f (Nat.div n 10) ++ [digit (Nat.modulo n 10)]
  end.

Definition str_of_nat (n : nat) : str := digits_fuel (S n) n.

(** [s.zfill(width)]: zeros on the left up to [width], after the sign when
    [s] opens with one. *)
Definition zfill (width : nat) (s : str) : str :=
  let fill := repeat 48%N (width - length s) in
  match s with
  | c :: t => if N.eqb c 43 || N.eqb c 45 then c :: fill ++ t else fill ++ s
  | [] => fill
  end.

(** The number a string of decimal digits stands for. *)
Definition nat_of_digits (s : str) : nat :=
  fold_left (fun acc c => (10 * acc + (N.to_nat c - 48))%nat) s O.

(** One written part: its name, its text and the byte count the manifest
    records (the manifest's rounded [mb] field is a float and is left
    out). *)
Record part_file : Type := PartFile {
  file_name : str;
  file_text : str;
  file_bytes : Z
}.

(** [digits], line 116. *)
Definition digits_for (chunks : list str) : nat :=
  Nat.max 4 (length (str_of_nat (length chunks))).

(** [fname], line 126. *)
Definition part_name (prefix : str) (digits idx : nat) : str :=
  prefix ++ zfill digits (str_of_nat idx) ++ py ".md".

(** Body of the loop over the chunks, lines 126-138. *)
Definition write_part (prefix : str) (digits : nat) (parts : list part_file)
  (item : nat * str) : result (list part_file) :=
  let fname := part_name prefix digits (fst item) in
  let content := written (snd item) in
  let* b := utf8_len content in
  Ok (parts ++ [PartFile fname content b]).

(** Lines 116-138: the parts written for [chunks], numbered from 1. *)
Definition write_parts (prefix : str) (chunks : list str)
  : result (list part_file) :=
  for_each (write_part prefix (digits_for chunks))
           (combine (seq 1 (length chunks)) chunks) [].

(** The only line terminator in [s] is the newline. *)
Definition lf_only (s : str) : Prop :=
  Forall (fun c => is_linebreak c = true -> c = LF) s.

(** Strings compared code point by code point, a proper prefix first. *)
Fixpoint str_ltb (a b : str) : bool :=
  match a, b with
  | [], [] => false
  | [], _ :: _ => true
  | _ :: _, [] => false
  | x :: a', y :: b' => N.ltb x y || (N.eqb x y && str_ltb a' b')
  end.

(* ------------------------------------------------------------------ *)
(** ** The exporter's Markdown blocks ([src/export_telegram_topic.py]) *)

Module Exporter.

(** The values the exporter puts into a record: [None], booleans,
    integers, strings, lists, and dictionaries with string keys kept in
    insertion order.  (No float reaches a record.) *)
#[local] Unset Elimination Schemes.
Inductive value : Type :=
| VNone
| VBool (b : bool)
| VInt (z : Z)
| VStr (s : str)
| VList (items : list value)
| VDict (items : list (str * value)).
#[local] Set Elimination Schemes.

(** [bool(v)] *)
Definition truthy_value (v : value) : bool :=
  match v with
  | VNone => false
  | VBool b => b
  | VInt z => negb (Z.eqb z 0)
  | VStr s => truthy s
  | VList l => match l with [] => false | _ :: _ => true end
  | VDict d => match d with [] => false | _ :: _ => true end
  end.

(** [d.get(k, default)]; the keys of a dictionary are distinct. *)
Fixpoint get (d : list (str * value)) (k : str) (default : value) : value :=
  match d with
  | [] => default
  | (k', v) :: rest =>
      if list_eq_dec N.eq_dec k k' then v else get rest k default
  end.

(** [str(z)] *)
Definition str_of_int (z : Z) : str :=
  if z <? 0 then 45%N :: str_of_nat (Z.to_nat (- z))
  else str_of_nat (Z.to_nat z).

(** [s.replace(c, "")] for a one-character [c]. *)
Definition remove_char (c : codepoint) (s : str) : str :=
  filter (fun d => negb (N.eqb d c)) s.

(** Leading characters that satisfy [p] dropped. *)
Fixpoint lstrip_with (p : codepoint -> bool) (s : str) : str :=
  match s with
  | c :: t => if p c then lstrip_with p t else s
  | [] => []
  end.

(** Both ends stripped of the characters that satisfy [p]. *)
Definition strip_with (p : codepoint -> bool) (s : str) : str :=
  rev (lstrip_with p (rev (lstrip_with p s))).

(** [s.strip("\n")] *)
Definition strip_LF (s : str) : str := strip_with (N.eqb LF) s.

(** [s.strip()] *)
Definition strip (s : str) : str := strip_with is_space s.

(** [c in s] *)
Definition contains (c : codepoint) (s : str) : bool := existsb (N.eqb c) s.

(** [s.split(c)] for a one-character separator. *)
Fixpoint split_on (c : codepoint) (s : str) : list str :=
  match s with
  | [] => [[]]
  | d :: t =>
      if N.eqb d c then [] :: split_on c t
      else
        match split_on c t with
        | l :: ls => (d :: l) :: ls
        | [] => [[d]]
        end
  end.

(** ["  " * indent] *)
Definition spaces (indent : nat) : str := concat (repeat (py "  ") indent).

Section Repr.

(** [str(v)] for a list or a dictionary is Python's [repr] of the
    container, which is not modelled: a parameter. *)
Variable repr : value -> str.

(** [str(v)] *)
Definition py_str (v : value) : str :=
  match v with
  | VNone => py "None"
  | VBool true => py "True"
  | VBool false => py "False"
  | VInt z => str_of_int z
  | VStr s => s
  | VList _ | VDict _ => repr v
  end.

(** [yaml_like], lines 234-273. *)
Fixpoint yaml_like (obj : value) (indent : nat) {struct obj} : str :=
  let sp := spaces indent in
  match obj with
  | VNone => sp ++ py "null\n"
  | VBool b => sp ++ (if b then py "true" else py "false") ++ [LF]
  | VInt z => sp ++ str_of_int z ++ [LF]
  | VStr s0 =>
      let s := strip_LF (remove_char CR s0) in
      if contains LF s then
        sp ++ py "|-\n"
           ++ concat (map (fun ln => sp ++ py "  " ++ ln ++ [LF])
                          (split_on LF s))
      else sp ++ s ++ [LF]
  | VList l =>
      match l with
      | [] => sp ++ py "[]\n"
      | _ :: _ =>
          (fix items (l : list value) : str :=
             match l with
             | [] => []
             | item :: rest =>
                 match item with
                 | VList _ | VDict _ =>
                     sp ++ py "-\n" ++ yaml_like item (S indent)
                 | _ => sp ++ py "- " ++ py_str item ++ [LF]
                 end ++ items rest
             end) l
      end
  | VDict d =>
      match d with
      | [] => sp ++ py "{}\n"
      | _ :: _ =>
          (fix entries (d : list (str * value)) : str :=
             match d with
             | [] => []
             | (k, v) :: rest =>
                 match v with
                 | VList _ | VDict _ =>
                     sp ++ k ++ py ":\n" ++ yaml_like v (S indent)
                 | _ => sp ++ k ++ py ": " ++ strip (yaml_like v 0) ++ [LF]
                 end ++ entries rest
             end) d
      end
  end.

(** [render_md_block], lines 217-232. *)
Definition render_md_block (rec : list (str * value)) : str :=
  let meta := VDict [
    (py "id", get rec (py "id") VNone);
    (py "date_utc", get rec (py "date_utc") VNone);
    (py "from", get rec (py "from") (VDict []));
    (py "reply_to", get rec (py "reply_to") (VDict []));
    (py "mentions", get rec (py "mentions") (VDict []));
    (py "has_media", get rec (py "has_media") VNone);
    (py "media", get rec (py "media") VNone);
    (py "edited_utc", get rec (py "edited_utc") VNone);
    (py "is_service", get rec (py "is_service") VNone)
  ] in
  let fm := yaml_like meta 0 in
  let text :=
    let t := get rec (py "text") VNone in
    if truthy_value t then t else VStr [] in
  py "---\n" ++ fm ++ py "---\n" ++ py_str text ++ py "\n\n".

(** What the exporter writes to [messages.md]: the blocks of the exported
    records, one after the other (lines 405 and 467). *)
Definition messages_md (recs : list (list (str * value))) : str :=
  concat (map render_md_block recs).

End Repr.

Section Slug.

(** [str.isalnum] on one character rests on the Unicode tables, which are
    not modelled: a parameter. *)
Variable isalnum : codepoint -> bool.

(** The class [[\w\-\.]]: a word character (alphanumeric or [_]), [-] or
    [.]. *)
Definition slug_keeps (c : codepoint) : bool :=
  (isalnum c || N.eqb c 95) || N.eqb c 45 || N.eqb c 46.

(** [re.sub(r"[^\w\-\.]+", "_", s)]: every maximal run of characters
    outside the class becomes one [_]; [in_run] tells that the previous
    character was in such a run. *)
Fixpoint sub_runs (s : str) (in_run : bool) : str :=
  match s with
  | [] => []
  | c :: t =>
      if slug_keeps c then c :: sub_runs t false
      else if in_run then sub_runs t true
      else 95%N :: sub_runs t true
  end.

(** [safe_slug], lines 54-57. *)
Definition safe_slug (s : str) : str :=
  let s := strip (or_empty s) in
  let s := sub_runs s false in
  if truthy s then slice s 0 80 else py "chat".

End Slug.

End Exporter.

(** A block as the exporter writes it: it opens with a record-header
    marker and closes with two newlines. *)
Definition block_shaped (b : str) : Prop :=
  header_at b 0 /\ endswith b (py "\n\n") = true.

(** The offsets at which consecutive blocks start, the first one at
    [from]. *)
Fixpoint offsets (from : Z) (blocks : list str) : list Z :=
  match blocks with
  | [] => []
  | b :: rest => from :: offsets (from + len b) rest
  end.

(* ------------------------------------------------------------------ *)
(** * Properties *)

(** ** The error monad *)

Lemma bind_Ok {A B} (a : A) (k : A -> result B) : bind (Ok a) k = k a.
Proof. reflexivity. Qed.

Lemma bind_inv {A B} (m : result A) (k : A -> result B) (b : B) :
  bind m k = Ok b -> exists a, m = Ok a /\ k a = Ok b.
Proof.
  destruct m as [a|e]; simpl; intros H.
  - now exists a.
  - discriminate.
Qed.

(** ** Strings *)

Lemma truthy_true (s : str) : truthy s = true <-> s <> [].
Proof. destruct s; simpl; split; congruence. Qed.

Lemma truthy_false (s : str) : truthy s = false <-> s = [].
Proof. destruct s; simpl; split; congruence. Qed.

Lemma truthy_app_r (a b : str) : b <> [] -> truthy (a ++ b) = true.
Proof.
  intros Hb. apply truthy_true. intros H.
  apply app_eq_nil in H. tauto.
Qed.

(** ** UTF-8 sizes *)

Lemma width_pos (c : codepoint) : 1 <= width c <= 4.
Proof. unfold width. repeat destruct (N.ltb _ _); lia. Qed.

Lemma size_nonneg (s : str) : 0 <= size s.
Proof.
  induction s as [|c t IH]; simpl; [lia|].
  pose proof (width_pos c). lia.
Qed.

Lemma size_app (a b : str) : size (a ++ b) = size a + size b.
Proof. induction a as [|c t IH]; simpl; [reflexivity | rewrite IH; lia]. Qed.

Lemma size_pos (s : str) : s <> [] -> 0 < size s.
Proof.
  destruct s as [|c t]; [congruence|]. intros _. simpl.
  pose proof (width_pos c). pose proof (size_nonneg t). lia.
Qed.

Lemma size_zero (s : str) : size s = 0 -> s = [].
Proof.
  destruct s as [|c t]; [reflexivity|]. intros H.
  assert (0 < size (c :: t)) by (apply size_pos; discriminate). lia.
Qed.

Lemma encode_char_Ok (c : codepoint) :
  is_surrogate c = false ->
  exists b, encode_char c = Ok b /\ Z.of_nat (length b) = width c.
Proof.
  intros Hs. unfold encode_char, width. rewrite Hs.
  destruct (N.ltb c 128); [eexists; split; reflexivity|].
  destruct (N.ltb c 2048); [eexists; split; reflexivity|].
  destruct (N.ltb c 65536); eexists; split; reflexivity.
Qed.

Lemma encode_char_Raise (c : codepoint) :
  is_surrogate c = true -> encode_char c = Raise UnicodeEncodeError.
Proof.
  intros Hs. unfold encode_char. rewrite Hs.
  unfold is_surrogate in Hs. apply andb_prop in Hs as [H1 H2].
  apply N.leb_le in H1.
  assert (N.ltb c 128 = false) as -> by (apply N.ltb_ge; lia).
  assert (N.ltb c 2048 = false) as -> by (apply N.ltb_ge; lia).
  reflexivity.
Qed.

Lemma encode_Ok (s : str) :
  encodable s ->
  exists b, encode s = Ok b /\ Z.of_nat (length b) = size s.
Proof.
  induction 1 as [|c t Hc Ht IH]; simpl.
  - now exists [].
  - destruct (encode_char_Ok c Hc) as (b & -> & Hb).
    destruct IH as (bs & -> & Hbs). simpl.
    exists (b ++ bs). split; [reflexivity|].
    rewrite length_app. lia.
Qed.

Lemma encode_encodable (s : str) (b : list N) :
  encode s = Ok b -> encodable s.
Proof.
  revert b. induction s as [|c t IH]; intros b H; [constructor|].
  simpl in H. apply bind_inv in H as (b1 & H1 & H).
  apply bind_inv in H as (b2 & H2 & _).
  constructor; [|now apply IH with b2].
  destruct (is_surrogate c) eqn:Hs; [|reflexivity].
  rewrite encode_char_Raise in H1 by assumption. discriminate.
Qed.

(** On an encodable string [utf8_len] returns the sum of the widths. *)
Lemma utf8_len_size (s : str) : encodable s -> utf8_len s = Ok (size s).
Proof.
  intros H. unfold utf8_len.
  destruct (encode_Ok s H) as (b & -> & Hb). simpl. now rewrite Hb.
Qed.

Lemma utf8_len_inv (s : str) (n : Z) :
  utf8_len s = Ok n -> encodable s /\ n = size s.
Proof.
  intros H. assert (He : encodable s).
  { unfold utf8_len in H. apply bind_inv in H as (b & Hb & _).
    exact (encode_encodable s b Hb). }
  split; [exact He|].
  rewrite (utf8_len_size s He) in H. congruence.
Qed.

Lemma encodable_app (a b : str) :
  encodable (a ++ b) <-> encodable a /\ encodable b.
Proof. apply Forall_app. Qed.

Lemma encodable_concat (l : list str) :
  encodable (concat l) <-> Forall encodable l.
Proof.
  induction l as [|a l IH]; simpl.
  - split; constructor.
  - rewrite encodable_app, IH. split.
    + intros [H1 H2]. now constructor.
    + intros H. inversion H; subst. now split.
Qed.

Lemma fits_size (max_bytes : Z) (c : str) :
  encodable c -> size c <= max_bytes -> fits max_bytes c.
Proof. intros He Hs. exists (size c). split; [now apply utf8_len_size|lia]. Qed.

Lemma oversized_size (max_bytes : Z) (c : str) :
  encodable c -> max_bytes < size c -> oversized max_bytes c.
Proof. intros He Hs. exists (size c). split; [now apply utf8_len_size|lia]. Qed.

(** ** Lines *)

Lemma concat_splitlines (s : str) : concat (splitlines s) = s.
Proof.
  induction s as [s IH] using (well_founded_induction
    (well_founded_ltof _ (@length codepoint))).
  destruct s as [|c t]; [reflexivity|]. simpl.
  destruct (is_linebreak c).
  - destruct t as [|d t']; [reflexivity|].
    destruct (N.eqb c CR && N.eqb d LF); simpl.
    + rewrite IH; [reflexivity|]. unfold ltof. simpl. lia.
    + f_equal. apply (IH (d :: t')). unfold ltof. simpl. lia.
  - assert (Ht : concat (splitlines t) = t)
      by (apply IH; unfold ltof; simpl; lia).
    destruct (splitlines t) as [|l ls]; simpl in *; now rewrite Ht.
Qed.

Lemma splitlines_nonempty (s : str) :
  Forall (fun ln => ln <> []) (splitlines s).
Proof.
  induction s as [s IH] using (well_founded_induction
    (well_founded_ltof _ (@length codepoint))).
  destruct s as [|c t]; [constructor|]. simpl.
  destruct (is_linebreak c).
  - destruct t as [|d t'].
    + constructor; [discriminate|constructor].
    + destruct (N.eqb c CR && N.eqb d LF).
      * constructor; [discriminate|]. apply IH. unfold ltof. simpl. lia.
      * constructor; [discriminate|]. apply IH. unfold ltof. simpl. lia.
  - pose proof (IH t) as Ht.
    destruct (splitlines t) as [|l ls] eqn:E.
    + constructor; [discriminate|constructor].
    + assert (Forall (fun ln : str => ln <> []) (l :: ls)) as H
        by (apply Ht; unfold ltof; simpl; lia).
      inversion H; subst. constructor; [discriminate|assumption].
Qed.

Lemma splitlines_encodable (s : str) :
  encodable s -> Forall encodable (splitlines s).
Proof. intros H. apply encodable_concat. now rewrite concat_splitlines. Qed.

(** ** The line loop *)

Lemma concat_single {A} (ln : list A) : concat [ln] = ln.
Proof. simpl. apply app_nil_r. Qed.

Lemma concat_snoc {A} (g : list (list A)) (ln : list A) :
  concat (g ++ [ln]) = concat g ++ ln.
Proof. rewrite concat_app. simpl. now rewrite app_nil_r. Qed.

Lemma concat_nonempty (g : list str) :
  Forall (fun ln => ln <> []) g -> g <> [] -> concat g <> [].
Proof.
  intros Hall Hg. destruct g as [|ln g']; [congruence|].
  inversion Hall; subst. simpl. intros H. apply app_eq_nil in H. tauto.
Qed.

Lemma line_group_single (max_bytes : Z) (ln : str) :
  encodable ln -> line_group max_bytes [ln].
Proof.
  intros He. split; [discriminate|].
  destruct (Z_le_gt_dec (size ln) max_bytes) as [Hle|Hgt].
  - left. rewrite concat_single. now apply fits_size.
  - right. exists ln. split; [reflexivity|]. apply oversized_size; [assumption|lia].
Qed.

(** The line loop cuts the lines into consecutive groups: [gp] is the group
    being filled, [gs] the groups already emitted. *)
Lemma line_loop_groups (max_bytes : Z) (lines : list str) :
  forall (o : list str) (gp : list str),
  Forall encodable lines ->
  Forall (fun ln => ln <> []) lines ->
  Forall encodable gp ->
  Forall (fun ln => ln <> []) gp ->
  gp = [] \/ line_group max_bytes gp ->
  exists gs gp',
    for_each (line_step max_bytes) lines
             (Parts o (concat gp) (size (concat gp)))
    = Ok (Parts (o ++ map (@concat codepoint) gs)
                (concat gp') (size (concat gp')))
    /\ concat gs ++ gp' = gp ++ lines
    /\ Forall (line_group max_bytes) gs
    /\ (gp' = [] \/ line_group max_bytes gp')
    /\ (gp' = [] -> gp = [] /\ lines = []).
Proof.
  induction lines as [|ln rest IH]; intros o gp Henc Hne Hgenc Hgne Hgp.
  - exists [], gp. simpl. rewrite !app_nil_r. repeat split; auto.
  - inversion Henc as [|? ? Hln Hrest]; subst.
    inversion Hne as [|? ? Hln0 Hrest0]; subst.
    cbn [for_each]. unfold line_step at 1.
    rewrite (utf8_len_size ln Hln), bind_Ok. cbn [part_b part out].
    destruct ((size (concat gp) + size ln >? max_bytes) && truthy (concat gp))
      eqn:Hc; cbn [part_b part out]; rewrite bind_Ok.
    + apply andb_prop in Hc as [_ Ht]. apply truthy_true in Ht.
      assert (Hgp' : line_group max_bytes gp).
      { destruct Hgp as [->|H]; [now contradiction Ht|exact H]. }
      destruct (IH (o ++ [concat gp]) [ln] Hrest Hrest0) as
        (gs & gp' & Hrun & Hcat & Hgs & Hlast & Hnil).
      * now constructor.
      * now constructor.
      * right. now apply line_group_single.
      * exists (gp :: gs), gp'.
        rewrite concat_single in Hrun.
        change ([] ++ ln) with ln. change (0 + size ln) with (size ln).
        rewrite Hrun. split; [|split; [|split; [|split]]].
        -- simpl. now rewrite <- app_assoc.
        -- simpl. rewrite <- app_assoc, Hcat. reflexivity.
        -- now constructor.
        -- exact Hlast.
        -- intros E. destruct (Hnil E) as [E' _]. discriminate.
    + assert (Hcase : gp = [] \/ size (concat gp) + size ln <= max_bytes).
      { apply andb_false_iff in Hc as [Hc|Hc].
        - right. rewrite Z.gtb_ltb in Hc. apply Z.ltb_ge in Hc. lia.
        - left. apply truthy_false in Hc.
          destruct gp as [|l gp]; [reflexivity|].
          exfalso. revert Hc. apply concat_nonempty; [assumption|discriminate]. }
      destruct (IH o (gp ++ [ln]) Hrest Hrest0) as
        (gs & gp' & Hrun & Hcat & Hgs & Hlast & Hnil).
      * apply Forall_app. split; [assumption|now constructor].
      * apply Forall_app. split; [assumption|now constructor].
      * right. destruct Hcase as [->|Hle].
        -- now apply line_group_single.
        -- split; [now destruct gp|]. left. apply fits_size.
           ++ apply encodable_concat, Forall_app. split; [assumption|now constructor].
           ++ rewrite concat_snoc, size_app. exact Hle.
      * exists gs, gp'. rewrite concat_snoc, size_app in Hrun.
        rewrite Hrun. split; [reflexivity|]. split; [|split; [|split]].
        -- rewrite Hcat, <- app_assoc. reflexivity.
        -- exact Hgs.
        -- exact Hlast.
        -- intros E. destruct (Hnil E) as [E' _]. now destruct gp.
Qed.

(** The output list only grows at its end: what the line loop does to a
    longer list is what it does to a shorter one, prefixed. *)
Lemma line_loop_prefix (max_bytes : Z) (lines : list (list N)) :
  forall (o o1 : list (list N)) (p : list N) (pb : Z),
  for_each (line_step max_bytes) lines (Parts (o ++ o1) p pb)
  = let* r := for_each (line_step max_bytes) lines (Parts o1 p pb) in
    Ok (Parts (o ++ out r) (part r) (part_b r)).
Proof.
  induction lines as [|ln rest IH]; intros o o1 p pb; [reflexivity|].
  cbn [for_each]. unfold line_step. cbn [out part part_b].
  destruct (utf8_len ln) as [ln_b|e]; cbn [bind]; [|reflexivity].
  destruct ((pb + ln_b >? max_bytes) && truthy p); cbn [out part part_b].
  - rewrite <- app_assoc. apply IH.
  - apply IH.
Qed.

(** The oversized branch appends to the output the concatenations of
    consecutive groups of the record's lines. *)
Lemma split_oversized_groups (max_bytes : Z) (rec : list N) :
  encodable rec ->
  exists gs,
    (forall o, split_oversized max_bytes o rec
               = Ok (o ++ map (@concat N) gs))
    /\ concat gs = splitlines rec
    /\ Forall (line_group max_bytes) gs.
Proof.
  intros He.
  pose proof (splitlines_encodable rec He) as Hle.
  pose proof (splitlines_nonempty rec) as Hln.
  destruct (line_loop_groups max_bytes (splitlines rec) [] [] Hle Hln)
    as (gs & gp' & Hrun & Hcat & Hgs & Hlast & Hnil); try constructor.
  { reflexivity. }
  simpl in Hrun, Hcat.
  assert (Hgne : Forall (fun ln : list N => ln <> []) gp').
  { rewrite <- Hcat in Hln. now apply Forall_app in Hln. }
  assert (Hgen : forall o,
             for_each (line_step max_bytes) (splitlines rec) (Parts o [] 0)
             = Ok (Parts (o ++ map (@concat N) gs) (concat gp')
                         (size (concat gp')))).
  { intros o. rewrite <- (app_nil_r o) at 1.
    rewrite line_loop_prefix, Hrun. reflexivity. }
  destruct Hlast as [->|Hg].
  - exists gs. rewrite app_nil_r in Hcat. split; [|now split].
    intros o. unfold split_oversized. rewrite Hgen. reflexivity.
  - exists (gs ++ [gp']). split; [|split].
    + intros o. unfold split_oversized. rewrite Hgen, bind_Ok.
      cbn [part out].
      assert (truthy (concat gp') = true) as ->.
      { apply truthy_true, concat_nonempty; [assumption|apply Hg]. }
      rewrite map_app. simpl. now rewrite app_assoc.
    + rewrite concat_snoc. exact Hcat.
    + apply Forall_app. split; [assumption|now constructor].
Qed.

(** ** One record *)

Lemma record_step_oversized (max_bytes : Z) (rec : list N) (n : Z) :
  utf8_len rec = Ok n -> max_bytes < n ->
  exists gs,
    (forall a,
        record_step max_bytes a rec
        = Ok (Acc (chunks a ++ (if truthy (cur a) then [cur a] else [])
                     ++ map (@concat N) gs)
                  []
                  (if truthy (cur a) then 0 else cur_bytes a)))
    /\ concat gs = splitlines rec
    /\ Forall (line_group max_bytes) gs.
Proof.
  intros Hn Hgt.
  pose proof Hn as Hn'. apply utf8_len_inv in Hn' as [He _].
  destruct (split_oversized_groups max_bytes rec He) as (gs & Hrun & Hcat & Hgs).
  exists gs. split; [|now split].
  intros a. unfold record_step. rewrite Hn, bind_Ok.
  assert ((n >? max_bytes) = true) as ->
    by (rewrite Z.gtb_ltb; apply Z.ltb_lt; lia).
  rewrite Hrun, bind_Ok.
  unfold push_current. destruct (truthy (cur a)) eqn:Ht; cbn [chunks cur cur_bytes].
  - now rewrite <- app_assoc.
  - apply truthy_false in Ht. rewrite Ht. reflexivity.
Qed.

Lemma record_step_fits (max_bytes : Z) (a : acc) (rec : str) (n : Z) :
  utf8_len rec = Ok n -> n <= max_bytes ->
  record_step max_bytes a rec
  = Ok (if (cur_bytes a + n >? max_bytes) && truthy (cur a)
        then Acc (chunks a ++ [cur a]) rec n
        else Acc (chunks a) (cur a ++ rec) (cur_bytes a + n)).
Proof.
  intros Hn Hle. unfold record_step. rewrite Hn, bind_Ok.
  assert ((n >? max_bytes) = false) as ->.
  { rewrite Z.gtb_ltb. apply Z.ltb_ge. lia. }
  destruct ((cur_bytes a + n >? max_bytes) && truthy (cur a)) eqn:Hc.
  - apply andb_prop in Hc as [_ Ht]. unfold push_current. rewrite Ht.
    reflexivity.
  - reflexivity.
Qed.

(** ** The record loop *)

Lemma concat_map_concat {A} (gs : list (list (list A))) :
  concat (map (@concat A) gs) = concat (concat gs).
Proof.
  induction gs as [|g gs IH]; simpl; [reflexivity|].
  now rewrite concat_app, IH.
Qed.

Lemma chunk_ok_flushed (max_bytes : Z) (all : list str) (a : acc) :
  acc_inv max_bytes a -> truthy (cur a) = true ->
  chunk_ok max_bytes all (cur a).
Proof.
  intros (Hb & He & Hfit) Ht. apply truthy_true in Ht.
  split; [exact Ht|]. left. apply fits_size; auto.
Qed.

Lemma chunk_ok_groups (max_bytes : Z) (all : list str) (rec : str)
  (gs : list (list str)) :
  In rec all -> oversized max_bytes rec ->
  concat gs = splitlines rec -> Forall (line_group max_bytes) gs ->
  Forall (chunk_ok max_bytes all) (map (@concat N) gs).
Proof.
  intros Hin Hov Hcat Hgs. apply Forall_map, Forall_forall.
  intros g Hg. rewrite Forall_forall in Hgs.
  destruct (Hgs g Hg) as [Hne Hcase].
  assert (Hsub : forall ln, In ln g -> In ln (splitlines rec)).
  { intros ln Hln. rewrite <- Hcat. apply in_concat. now exists g. }
  split.
  - apply concat_nonempty; [|exact Hne]. apply Forall_forall. intros ln Hln.
    pose proof (splitlines_nonempty rec) as Hall.
    rewrite Forall_forall in Hall. now apply Hall, Hsub.
  - destruct Hcase as [Hfit|(ln & -> & Hln)]; [now left|right].
    rewrite concat_single. split; [exact Hln|].
    exists rec. repeat split; auto. apply Hsub. now left.
Qed.

Lemma record_loop (max_bytes : Z) (all : list str) (records : list str) :
  forall a : acc,
  Forall encodable records -> incl records all -> acc_inv max_bytes a ->
  exists a' news,
    for_each (record_step max_bytes) records a = Ok a'
    /\ acc_inv max_bytes a'
    /\ chunks a' = chunks a ++ news
    /\ concat news ++ cur a' = cur a ++ concat records
    /\ Forall (chunk_ok max_bytes all) news.
Proof.
  induction records as [|rec rest IH]; intros a Henc Hincl Hinv.
  - exists a, []. simpl. rewrite !app_nil_r. auto.
  - inversion Henc as [|? ? Hrec Hrest]; subst.
    assert (Hin : In rec all) by (apply Hincl; now left).
    assert (Hincl' : incl rest all) by (intros x Hx; apply Hincl; now right).
    pose proof (utf8_len_size rec Hrec) as Hlen.
    cbn [for_each].
    destruct (Z_le_gt_dec (size rec) max_bytes) as [Hle|Hgt].
    + rewrite (record_step_fits max_bytes a rec (size rec) Hlen Hle), bind_Ok.
      destruct Hinv as (Hb & He & Hfit).
      destruct ((cur_bytes a + size rec >? max_bytes) && truthy (cur a)) eqn:Hc.
      * apply andb_prop in Hc as [_ Ht].
        destruct (IH (Acc (chunks a ++ [cur a]) rec (size rec)) Hrest Hincl')
          as (a' & news & Hrun & Hinv' & Hch & Hcat & Hok).
        { repeat split; auto. }
        exists a', (cur a :: news). rewrite Hrun. repeat split; try apply Hinv'.
        -- rewrite Hch. cbn [chunks]. now rewrite <- app_assoc.
        -- cbn [cur] in Hcat. simpl. now rewrite <- !app_assoc, Hcat.
        -- constructor; [|exact Hok].
           apply chunk_ok_flushed; [repeat split; auto|exact Ht].
      * destruct (IH (Acc (chunks a) (cur a ++ rec) (cur_bytes a + size rec))
                    Hrest Hincl')
          as (a' & news & Hrun & Hinv' & Hch & Hcat & Hok).
        { unfold acc_inv. cbn [cur cur_bytes]. split; [|split].
          - rewrite size_app. lia.
          - apply encodable_app. now split.
          - intros _. rewrite size_app.
            apply andb_false_iff in Hc as [Hc|Hc].
            + rewrite Z.gtb_ltb in Hc. apply Z.ltb_ge in Hc. lia.
            + apply truthy_false in Hc. rewrite Hc. simpl. lia. }
        exists a', news. rewrite Hrun. repeat split; try apply Hinv'; auto.
        cbn [cur] in Hcat. simpl. now rewrite Hcat, <- app_assoc.
    + destruct (record_step_oversized max_bytes rec (size rec) Hlen)
        as (gs & Hstep & Hgcat & Hgs); [lia|].
      specialize (Hstep a). rewrite Hstep, bind_Ok.
      assert (Hov : oversized max_bytes rec)
        by (apply oversized_size; [assumption|lia]).
      match type of Hstep with _ = Ok ?x => set (a1 := x) in * end.
      destruct (IH a1 Hrest Hincl')
        as (a' & news & Hrun & Hinv' & Hch & Hcat & Hok).
      { unfold a1, acc_inv. cbn [cur cur_bytes]. split; [|split].
        - destruct (truthy (cur a)) eqn:Ht; [reflexivity|].
          apply truthy_false in Ht. destruct Hinv as (Hb & _).
          rewrite Hb, Ht. reflexivity.
        - constructor.
        - congruence. }
      exists a', ((if truthy (cur a) then [cur a] else [])
                  ++ map (@concat N) gs ++ news).
      rewrite Hrun. split; [reflexivity|]. split; [exact Hinv'|].
      split; [|split].
      * rewrite Hch. unfold a1. cbn [chunks]. now rewrite <- !app_assoc.
      * unfold a1 in Hcat. cbn [cur] in Hcat. simpl in Hcat.
        rewrite !concat_app, <- !app_assoc, Hcat, concat_map_concat, Hgcat.
        rewrite concat_splitlines. simpl. f_equal.
        destruct (truthy (cur a)) eqn:Ht.
        -- apply concat_single.
        -- apply truthy_false in Ht. now rewrite Ht.
      * apply Forall_app. split; [|apply Forall_app; split; [|exact Hok]].
        -- destruct (truthy (cur a)) eqn:Ht; [|constructor].
           constructor; [|constructor]. now apply chunk_ok_flushed.
        -- now apply chunk_ok_groups with rec.
Qed.

(** The chunker as a whole: on encodable records it returns, the chunks
    concatenate to the records, and every chunk is [chunk_ok]. *)
Lemma chunker_spec (records : list str) (max_bytes : Z) :
  Forall encodable records ->
  exists cs,
    chunk_records_by_size records max_bytes = Ok cs
    /\ concat cs = concat records
    /\ Forall (chunk_ok max_bytes records) cs.
Proof.
  intros Henc. unfold chunk_records_by_size.
  destruct (record_loop max_bytes records records acc0 Henc)
    as (a' & news & Hrun & Hinv & Hch & Hcat & Hok).
  { apply incl_refl. }
  { repeat split; [constructor|]. simpl. congruence. }
  rewrite Hrun, bind_Ok. simpl in Hch, Hcat. unfold push_current.
  destruct (truthy (cur a')) eqn:Ht; cbn [chunks]; rewrite Hch.
  - exists (news ++ [cur a']). split; [reflexivity|]. split.
    + now rewrite concat_snoc.
    + apply Forall_app. split; [exact Hok|].
      constructor; [|constructor]. now apply chunk_ok_flushed.
  - exists news. split; [reflexivity|]. split; [|exact Hok].
    apply truthy_false in Ht. rewrite Ht, app_nil_r in Hcat. exact Hcat.
Qed.

(** Conversely, the chunker returns only on records that UTF-8 can
    encode: a record with a surrogate makes [utf8_len] raise. *)
Lemma chunker_returns (records : list str) (max_bytes : Z) (cs : list str) :
  chunk_records_by_size records max_bytes = Ok cs -> Forall encodable records.
Proof.
  unfold chunk_records_by_size. intros H.
  apply bind_inv in H as (a & H & _). revert H. generalize acc0.
  induction records as [|rec rest IH]; intros a0 H; [constructor|].
  cbn [for_each] in H. apply bind_inv in H as (a1 & Hstep & H).
  constructor; [|now apply IH with a1].
  unfold record_step in Hstep. apply bind_inv in Hstep as (n & Hn & _).
  now apply utf8_len_inv in Hn.
Qed.

(** ** The matcher *)

Lemma skipn_nth_error (s : str) (i : nat) :
  skipn i s = match nth_error s i with
              | Some d => d :: skipn (S i) s
              | None => []
              end.
Proof.
  revert s. induction i as [|i IH]; intros [|c t]; try reflexivity.
  simpl skipn at 1. rewrite IH. reflexivity.
Qed.

Lemma startswith_skipn_cons (s : str) (i : nat) (c : codepoint) (p : str) :
  startswith (skipn i s) (c :: p)
  = chr_at s i c && startswith (skipn (S i) s) p.
Proof.
  unfold chr_at. rewrite (skipn_nth_error s i).
  destruct (nth_error s i); reflexivity.
Qed.

Lemma startswith_skipn_app (s : str) (p1 p2 : str) :
  forall i : nat,
  startswith (skipn i s) (p1 ++ p2)
  = startswith (skipn i s) p1 && startswith (skipn (i + length p1) s) p2.
Proof.
  induction p1 as [|c p1 IH]; intros i.
  - simpl. rewrite Nat.add_0_r. now destruct (skipn i s).
  - simpl app. rewrite !startswith_skipn_cons, IH. simpl length.
    rewrite Nat.add_succ_r, andb_assoc. reflexivity.
Qed.

Lemma exec_Chr (c : codepoint) (s : str) (i : nat) (g : option nat) k :
  exec (Chr c) s i g k = if chr_at s i c then k (S i) g else None.
Proof. unfold chr_at. simpl. now destruct (nth_error s i). Qed.

Lemma exec_Space (s : str) (i : nat) (g : option nat) k :
  exec Space s i g k = if space_at s i then k (S i) g else None.
Proof. unfold space_at. simpl. now destruct (nth_error s i). Qed.

(** A literal matches exactly where the subject continues with it. *)
Lemma exec_Lit (p : str) (s : str) :
  forall (i : nat) (g : option nat) k,
  exec (Lit p) s i g k
  = if startswith (skipn i s) p then k (i + length p)%nat g else None.
Proof.
  induction p as [|c p IH]; intros i g k.
  - simpl. rewrite Nat.add_0_r. now destruct (skipn i s).
  - change (exec (Lit (c :: p)) s i g k)
      with (exec (Chr c) s i g (fun j g' => exec (Lit p) s j g' k)).
    rewrite exec_Chr, startswith_skipn_cons.
    destruct (chr_at s i c); [|reflexivity].
    rewrite IH. simpl length. now rewrite Nat.add_succ_r.
Qed.

(** The tail of [boundary_pat]: group 1 around the delimiter line and the
    look-ahead. *)
Lemma exec_marker (s : str) (i : nat) (g : option nat) k :
  exec (Group (Cat (Lit (py "---\n")) (Ahead (Cat (Lit (py "id:")) Space))))
       s i g k
  = if header_atb s i then k (i + 4)%nat (Some i) else None.
Proof.
  change (exec (Group ?r) s i g k)
    with (exec (Lit (py "---\n")) s i g
            (fun j g1 =>
               match exec (Lit (py "id:")) s j g1
                          (fun j' g2 => exec Space s j' g2
                                          (fun j3 g3 => Some (j3, g3))) with
               | Some (_, g') => k j (Some i)
               | None => None
               end)).
  rewrite exec_Lit. unfold header_atb.
  change (py "---\nid:") with (py "---\n" ++ py "id:").
  rewrite startswith_skipn_app.
  destruct (startswith (skipn i s) (py "---\n")); [|reflexivity].
  rewrite exec_Lit. change (length (py "---\n")) with 4%nat.
  destruct (startswith (skipn (i + 4) s) (py "id:")); [|reflexivity].
  rewrite exec_Space. change (length (py "id:")) with 3%nat.
  replace (i + 4 + 3)%nat with (i + 7)%nat by lia.
  now destruct (space_at s (i + 7)).
Qed.

Lemma run_below (c : codepoint) (s : str) :
  forall m : nat, (m < run c s)%nat -> nth_error s m = Some c.
Proof.
  induction s as [|d t IH]; simpl; intros m Hm; [lia|].
  destruct (N.eqb c d) eqn:E; [|lia]. apply N.eqb_eq in E. subst d.
  destruct m as [|m]; [reflexivity|]. simpl. apply IH. lia.
Qed.

Lemma run_stop (c : codepoint) (s : str) : chr_at s (run c s) c = false.
Proof.
  unfold chr_at. induction s as [|d t IH]; simpl; [reflexivity|].
  destruct (N.eqb c d) eqn:E; simpl; [exact IH|exact E].
Qed.

(** [run] counts exactly the leading occurrences. *)
Lemma run_unique (c : codepoint) (s : str) (r : nat) :
  (forall m, (m < r)%nat -> nth_error s m = Some c) ->
  chr_at s r c = false ->
  run c s = r.
Proof.
  intros Hlow Hstop.
  destruct (Nat.lt_trichotomy (run c s) r) as [H|[H|H]]; [|exact H|].
  - pose proof (run_stop c s) as Hs. unfold chr_at in Hs.
    rewrite (Hlow _ H), N.eqb_refl in Hs. discriminate.
  - unfold chr_at in Hstop. rewrite (run_below c s r H), N.eqb_refl in Hstop.
    discriminate.
Qed.

Lemma backoff_none (k : nat -> option outcome) (lo : nat) :
  forall n : nat, (forall m, (m <= n)%nat -> k m = None) -> backoff k lo n = None.
Proof.
  induction n as [|n IH]; intros Hk; simpl.
  - destruct (Nat.ltb 0 lo); [reflexivity|]. now rewrite Hk.
  - destruct (Nat.ltb (S n) lo); [reflexivity|].
    rewrite Hk by lia. apply IH. intros m Hm. apply Hk. lia.
Qed.

(** When every shorter count fails, greedy repetition stands or falls with
    the longest one. *)
Lemma backoff_top (k : nat -> option outcome) (lo n : nat) :
  (forall m, (m < n)%nat -> k m = None) ->
  backoff k lo n = if Nat.leb lo n then k n else None.
Proof.
  intros Hk.
  assert (Hunfold : backoff k lo n =
                    if Nat.ltb n lo then None
                    else match k n with
                         | Some r => Some r
                         | None => match n with
                                   | O => None
                                   | S n' => backoff k lo n'
                                   end
                         end) by (destruct n; reflexivity).
  rewrite Hunfold. destruct (Nat.leb lo n) eqn:E.
  - apply Nat.leb_le in E.
    assert (Nat.ltb n lo = false) as -> by (apply Nat.ltb_ge; lia).
    destruct (k n); [reflexivity|]. destruct n as [|n]; [reflexivity|].
    apply backoff_none. intros m Hm. apply Hk. lia.
  - apply Nat.leb_gt in E.
    assert (Nat.ltb n lo = true) as -> by (apply Nat.ltb_lt; lia).
    reflexivity.
Qed.

Lemma header_atb_dash (s : str) (i : nat) :
  header_atb s i = true -> chr_at s i 45%N = true.
Proof.
  unfold header_atb. change (py "---\nid:") with (45%N :: py "--\nid:").
  rewrite startswith_skipn_cons. intros H.
  apply andb_prop in H as [H _]. now apply andb_prop in H as [H _].
Qed.

Lemma chr_at_inj (s : str) (i : nat) (c d : codepoint) :
  chr_at s i c = true -> chr_at s i d = true -> c = d.
Proof.
  unfold chr_at. destruct (nth_error s i); [|discriminate].
  intros H1 H2. apply N.eqb_eq in H1, H2. congruence.
Qed.

(** One attempt of [boundary_pat] at [p]: the whole run of newlines from
    [p], at least two, then the marker. *)
Lemma match_at_boundary (md : str) (p : nat) :
  match_at boundary_pat md p
  = let r := run LF (skipn p md) in
    if Nat.leb 2 r && header_atb md (p + r)
    then Some ((p + r + 4)%nat, Some (p + r)%nat)
    else None.
Proof.
  unfold match_at, boundary_pat.
  change (exec (Cat (AtLeast 2 LF) ?G) md p None ?K)
    with (backoff (fun n => exec G md (p + n) None K) 2 (run LF (skipn p md))).
  cbv zeta. rewrite backoff_top.
  - rewrite exec_marker.
    destruct (Nat.leb 2 (run LF (skipn p md))); [|reflexivity].
    simpl andb. reflexivity.
  - intros m Hm. rewrite exec_marker.
    destruct (header_atb md (p + m)) eqn:H; [|reflexivity].
    apply header_atb_dash in H.
    pose proof (run_below LF (skipn p md) m Hm) as Hlf.
    rewrite nth_error_skipn in Hlf.
    assert (chr_at md (p + m) LF = true)
      by (unfold chr_at; now rewrite Hlf).
    pose proof (chr_at_inj md (p + m) _ _ H H0). discriminate.
Qed.

(** ** The scan of [finditer] *)

Section Scan.

Local Open Scope nat_scope.

Variable md : list N.

Lemma chr_at_skipn (p m : nat) (c : N) :
  chr_at (skipn p md) m c = chr_at md (p + m) c.
Proof. unfold chr_at. now rewrite nth_error_skipn. Qed.

Lemma chr_at_clash (i j : nat) (c d : N) :
  chr_at md i c = true -> chr_at md j d = true -> i = j -> c <> d -> False.
Proof.
  intros H1 H2 -> Hne. apply Hne. exact (chr_at_inj md j c d H1 H2).
Qed.

Lemma chr_at_length (i : nat) (c : N) :
  chr_at md i c = true -> i < length md.
Proof.
  unfold chr_at. intros H. apply nth_error_Some.
  destruct (nth_error md i); [discriminate|discriminate H].
Qed.

(** The first five characters of a marker. *)
Lemma header_chars (i : nat) :
  header_atb md i = true ->
  chr_at md i 45%N = true /\ chr_at md (i + 1) 45%N = true
  /\ chr_at md (i + 2) 45%N = true /\ chr_at md (i + 3) LF = true
  /\ chr_at md (i + 4) 105%N = true.
Proof.
  unfold header_atb.
  change (py "---\nid:") with [45; 45; 45; LF; 105; 100; 58]%N.
  rewrite !startswith_skipn_cons. intros H.
  repeat (apply andb_prop in H as [? H]).
  repeat match goal with
         | H : _ && _ = true |- _ => apply andb_prop in H as [? ?]
         end.
  replace (i + 1) with (S i) by lia.
  replace (i + 2) with (S (S i)) by lia.
  replace (i + 3) with (S (S (S i))) by lia.
  replace (i + 4) with (S (S (S (S i)))) by lia.
  auto.
Qed.

Lemma boundaryb_inv (q : nat) :
  boundaryb md q = true ->
  2 <= q /\ chr_at md (q - 2) LF = true /\ chr_at md (q - 1) LF = true
  /\ header_atb md q = true.
Proof.
  unfold boundaryb. intros H.
  apply andb_prop in H as [H H4]. apply andb_prop in H as [H H3].
  apply andb_prop in H as [H1 H2]. apply Nat.leb_le in H1. auto.
Qed.

(** One step of the scan with [boundary_pat]. *)
Lemma scan_boundary_step (f pos : nat) :
  scan (S f) boundary_pat md pos
  = if Nat.ltb (length md) pos then []
    else
      let r := run LF (skipn pos md) in
      if Nat.leb 2 r && header_atb md (pos + r)
      then Mobj pos (pos + r + 4) (Some (pos + r))
             :: scan f boundary_pat md (pos + r + 4)
      else scan f boundary_pat md (S pos).
Proof.
  cbn [scan]. destruct (Nat.ltb (length md) pos); [reflexivity|].
  rewrite match_at_boundary. cbv zeta.
  destruct (Nat.leb 2 (run LF (skipn pos md)) && header_atb md (pos + run LF (skipn pos md)));
    [|reflexivity].
  assert (Nat.eqb (pos + run LF (skipn pos md) + 4) pos = false) as ->
    by (apply Nat.eqb_neq; lia).
  reflexivity.
Qed.

(** A successful attempt at [pos] ends a run of newlines on a marker. *)
Lemma attempt_boundary (pos r : nat) :
  r = run LF (skipn pos md) -> 2 <= r -> header_atb md (pos + r) = true ->
  boundaryb md (pos + r) = true.
Proof.
  intros Hr H2 Hh. unfold boundaryb. rewrite Hh.
  assert (Hlf : forall m, m < r -> chr_at md (pos + m) LF = true).
  { intros m Hm. rewrite <- chr_at_skipn. unfold chr_at.
    rewrite (run_below LF (skipn pos md) m) by lia. apply N.eqb_refl. }
  replace (pos + r - 2) with (pos + (r - 2)) by lia.
  replace (pos + r - 1) with (pos + (r - 1)) by lia.
  rewrite !Hlf by lia.
  assert (Nat.leb 2 (pos + r) = true) as -> by (apply Nat.leb_le; lia).
  reflexivity.
Qed.

(** Every reported start is a boundary at least two past [pos]. *)
Lemma scan_sound (fuel : nat) :
  forall pos : nat,
  Forall (fun z => exists q, z = Z.of_nat q /\ pos + 2 <= q
                             /\ boundaryb md q = true)
         (map start1 (scan fuel boundary_pat md pos)).
Proof.
  induction fuel as [|f IH]; intros pos; [constructor|].
  rewrite scan_boundary_step.
  destruct (Nat.ltb (length md) pos); [constructor|]. cbv zeta.
  destruct (Nat.leb 2 (run LF (skipn pos md))
            && header_atb md (pos + run LF (skipn pos md))) eqn:E.
  - apply andb_prop in E as [E1 E2]. apply Nat.leb_le in E1.
    cbn [map]. constructor.
    + exists (pos + run LF (skipn pos md)). split; [reflexivity|].
      split; [lia|]. now apply attempt_boundary.
    + eapply Forall_impl; [|apply IH].
      intros z (q & -> & Hq & Hb). exists q. split; [reflexivity|].
      split; [lia|exact Hb].
  - eapply Forall_impl; [|apply IH].
    intros z (q & -> & Hq & Hb). exists q. split; [reflexivity|].
    split; [lia|exact Hb].
Qed.

(** The reported starts increase. *)
Lemma scan_sorted (fuel : nat) :
  forall pos : nat,
  StronglySorted Z.lt (map start1 (scan fuel boundary_pat md pos)).
Proof.
  induction fuel as [|f IH]; intros pos; [constructor|].
  rewrite scan_boundary_step.
  destruct (Nat.ltb (length md) pos); [constructor|]. cbv zeta.
  destruct (Nat.leb 2 (run LF (skipn pos md))
            && header_atb md (pos + run LF (skipn pos md))); [|apply IH].
  cbn [map]. constructor; [apply IH|].
  eapply Forall_impl; [|apply scan_sound].
  intros z (q & -> & Hq & _). unfold start1. cbn [m_group1]. lia.
Qed.

(** Every boundary at least two past [pos] is reported. *)
Lemma scan_complete (fuel : nat) :
  forall (pos q : nat),
  S (length md) <= fuel + pos ->
  pos + 2 <= q -> boundaryb md q = true ->
  In (Z.of_nat q) (map start1 (scan fuel boundary_pat md pos)).
Proof.
  induction fuel as [|f IH]; intros pos q Hfuel Hq Hb.
  - apply boundaryb_inv in Hb as (_ & _ & _ & Hh).
    apply header_chars in Hh as (Hd & _). apply chr_at_length in Hd.
    simpl in Hfuel. lia.
  - rewrite scan_boundary_step.
    pose proof Hb as Hb0.
    apply boundaryb_inv in Hb as (_ & Hq2 & Hq1 & Hh).
    pose proof (header_chars q Hh) as (Hd & _).
    pose proof (chr_at_length q _ Hd) as Hlen.
    assert (Nat.ltb (length md) pos = false) as -> by (apply Nat.ltb_ge; lia).
    cbv zeta. set (r := run LF (skipn pos md)).
    assert (Hlf : forall m, m < r -> chr_at md (pos + m) LF = true).
    { intros m Hm. rewrite <- chr_at_skipn. unfold chr_at.
      rewrite (run_below LF (skipn pos md) m) by exact Hm. apply N.eqb_refl. }
    destruct (Nat.leb 2 r && header_atb md (pos + r)) eqn:E.
    + apply andb_prop in E as [E1 E2]. apply Nat.leb_le in E1.
      cbn [map]. unfold start1 at 1. cbn [m_group1].
      destruct (Nat.lt_trichotomy q (pos + r)) as [Hlt|[Heq|Hgt]].
      * exfalso. apply (chr_at_clash q (pos + (q - pos)) _ _ Hd (Hlf (q - pos) ltac:(lia)));
          [lia|discriminate].
      * left. now rewrite Heq.
      * right. apply IH; [lia| |exact Hb0].
        pose proof (header_chars (pos + r) E2) as (H0 & H1 & H2 & H3 & H4).
        destruct (Nat.le_gt_cases (pos + r + 4 + 2) q) as [Hfar|Hnear];
          [exact Hfar|exfalso].
        assert (Hcases : q = pos + r + 1 \/ q = pos + r + 2 \/ q = pos + r + 3
                         \/ q = pos + r + 4 \/ q = pos + r + 5) by lia.
        destruct Hcases as [->|[->|[->|[->| ->]]]].
        -- apply (chr_at_clash _ _ _ _ Hq1 H0); [lia|discriminate].
        -- apply (chr_at_clash _ _ _ _ Hq1 H1); [lia|discriminate].
        -- apply (chr_at_clash _ _ _ _ Hq1 H2); [lia|discriminate].
        -- apply (chr_at_clash _ _ _ _ Hq2 H2); [lia|discriminate].
        -- apply (chr_at_clash _ _ _ _ Hq1 H4); [lia|discriminate].
    + destruct (Nat.eq_dec q (pos + 2)) as [->|Hne].
      * exfalso.
        assert (Hr : r = 2).
        { apply run_unique.
          - intros m Hm.
            assert (Hc : chr_at (skipn pos md) m LF = true).
            { rewrite chr_at_skipn. destruct m as [|[|m]]; [| |lia].
              - replace (pos + 0) with (pos + 2 - 2) by lia. exact Hq2.
              - replace (pos + 1) with (pos + 2 - 1) by lia. exact Hq1. }
            unfold chr_at in Hc.
            destruct (nth_error (skipn pos md) m) as [d|]; [|discriminate].
            apply N.eqb_eq in Hc. now subst d.
          - rewrite chr_at_skipn.
            destruct (chr_at md (pos + 2) LF) eqn:Hc; [|reflexivity].
            exfalso. apply (chr_at_clash _ _ _ _ Hc Hd); [lia|discriminate]. }
        rewrite Hr, Hh in E. discriminate.
      * apply IH; [lia|lia|exact Hb0].
Qed.

End Scan.

(** ** [sorted] and [set] *)

Lemma insert_perm (x : Z) (l : list Z) : Permutation (insert x l) (x :: l).
Proof.
  induction l as [|y t IH]; simpl; [reflexivity|].
  destruct (x <=? y); [reflexivity|].
  rewrite IH. apply perm_swap.
Qed.

Lemma sorted_perm (l : list Z) : Permutation (sorted l) l.
Proof.
  induction l as [|x t IH]; simpl; [reflexivity|].
  rewrite insert_perm. now constructor.
Qed.

Lemma insert_sorted (x : Z) (l : list Z) :
  StronglySorted Z.le l -> StronglySorted Z.le (insert x l).
Proof.
  induction 1 as [|y t Hs IH Hall]; simpl.
  - repeat constructor.
  - destruct (x <=? y) eqn:E.
    + apply Z.leb_le in E. constructor; [now constructor|].
      constructor; [exact E|].
      eapply Forall_impl; [|exact Hall]. intros z Hz. simpl in Hz. lia.
    + apply Z.leb_gt in E. constructor; [exact IH|].
      apply (Permutation_Forall (Permutation_sym (insert_perm x t))).
      constructor; [lia|exact Hall].
Qed.

Lemma sorted_sorted (l : list Z) : StronglySorted Z.le (sorted l).
Proof.
  induction l as [|x t IH]; simpl; [constructor|now apply insert_sorted].
Qed.

(** A list has one ordered arrangement. *)
Lemma sorted_unique (l1 : list Z) :
  forall l2 : list Z,
  Permutation l1 l2 ->
  StronglySorted Z.le l1 -> StronglySorted Z.le l2 -> l1 = l2.
Proof.
  induction l1 as [|x t IH]; intros l2 Hp H1 H2.
  - apply Permutation_nil in Hp. now subst.
  - destruct l2 as [|y u].
    + apply Permutation_sym, Permutation_nil in Hp. discriminate.
    + inversion H1 as [|? ? Ht Hx]; subst.
      inversion H2 as [|? ? Hu Hy]; subst.
      assert (x = y).
      { assert (In x (y :: u)) as [->|Hxu]
          by (apply (Permutation_in _ Hp); now left); [reflexivity|].
        assert (In y (x :: t)) as [->|Hyt]
          by (apply (Permutation_in _ (Permutation_sym Hp)); now left);
          [reflexivity|].
        rewrite Forall_forall in Hx, Hy.
        pose proof (Hx _ Hyt). pose proof (Hy _ Hxu). lia. }
      subst y. f_equal. apply IH; auto.
      now apply Permutation_cons_inv in Hp.
Qed.

Lemma lt_sorted_le (l : list Z) :
  StronglySorted Z.lt l -> StronglySorted Z.le l.
Proof.
  induction 1 as [|x t Hs IH Hall]; constructor; auto.
  eapply Forall_impl; [|exact Hall]. intros z Hz. simpl in Hz. lia.
Qed.

Lemma lt_sorted_NoDup (l : list Z) : StronglySorted Z.lt l -> NoDup l.
Proof.
  induction 1 as [|x t Hs IH Hall]; constructor; auto.
  intros Hin. rewrite Forall_forall in Hall. specialize (Hall _ Hin). lia.
Qed.

(** Whatever order [set] iterates in, [sorted(set(l))] is the same list. *)
Lemma sorted_set_iteration (iter : list Z -> list Z) (l : list Z) :
  set_iteration iter -> sorted (iter l) = sorted (nodup Z.eq_dec l).
Proof.
  intros Hiter. apply sorted_unique; try apply sorted_sorted.
  rewrite !sorted_perm. apply Hiter.
Qed.

(** On a list that already increases, [sorted(set(l))] changes nothing. *)
Lemma sorted_set_increasing (l : list Z) :
  StronglySorted Z.lt l -> sorted (nodup Z.eq_dec l) = l.
Proof.
  intros Hs. rewrite nodup_fixed_point by now apply lt_sorted_NoDup.
  apply sorted_unique; [apply sorted_perm|apply sorted_sorted|].
  now apply lt_sorted_le.
Qed.

(** ** Slices *)

Lemma slice_nat (s : list N) (a b : nat) :
  slice s (Z.of_nat a) (Z.of_nat b) = firstn (b - a) (skipn a s).
Proof.
  unfold slice, clamp, len.
  assert ((Z.of_nat a <? 0) = false) as -> by (apply Z.ltb_ge; lia).
  assert ((Z.of_nat b <? 0) = false) as -> by (apply Z.ltb_ge; lia).
  destruct (Nat.le_gt_cases (length s) a) as [Ha|Ha].
  - rewrite (Z.min_r (Z.of_nat a)) by lia. rewrite Nat2Z.id.
    rewrite !skipn_all2 by lia. now rewrite !firstn_nil.
  - rewrite (Z.min_l (Z.of_nat a)) by lia. rewrite Nat2Z.id.
    destruct (Nat.le_gt_cases b (length s)) as [Hb|Hb].
    + rewrite Z.min_l by lia. f_equal. lia.
    + rewrite Z.min_r by lia.
      rewrite !firstn_all2; [reflexivity| |]; rewrite length_skipn; lia.
Qed.

Lemma or_empty_id (s : list N) : or_empty s = s.
Proof. now destruct s. Qed.

(** ** The boundary detector *)

Lemma startswith_firstn (p : list N) :
  forall (n : nat) (s : list N),
  (length p <= n)%nat -> startswith (firstn n s) p = startswith s p.
Proof.
  induction p as [|c p IH]; intros n s Hn.
  - now destruct (firstn n s), s.
  - destruct n as [|n]; [simpl in Hn; lia|].
    destruct s as [|d s]; [reflexivity|]. simpl.
    rewrite IH by (simpl in Hn; lia). reflexivity.
Qed.

(** [re.match] with [head_pat]: the subject opens with [id:] and one
    white-space character. *)
Lemma head_pat_spec (s : list N) :
  is_some (re_match head_pat s) = startswith s (py "id:") && space_at s 3.
Proof.
  unfold re_match, match_at, head_pat.
  change (exec (Cat Bol (Cat (Lit ?p) Space)) s O None ?K)
    with (exec (Lit p) s O None (fun j g => exec Space s j g K)).
  rewrite exec_Lit. change (skipn 0 s) with s.
  destruct (startswith s (py "id:")); [|reflexivity].
  rewrite exec_Space. change (0 + length (py "id:"))%nat with 3%nat.
  now destruct (space_at s 3).
Qed.

(** The test of line 30 is the marker test at offset 0. *)
Lemma head_check (md : list N) :
  startswith md (py "---\n")
  && is_some (re_match head_pat (or_empty (slice md 4 80)))
  = header_atb md 0.
Proof.
  rewrite or_empty_id, head_pat_spec. unfold header_atb.
  change (py "---\nid:") with (py "---\n" ++ py "id:").
  rewrite startswith_skipn_app. change (skipn 0 md) with md.
  change (0 + length (py "---\n"))%nat with 4%nat.
  change (slice md 4 80) with (slice md (Z.of_nat 4) (Z.of_nat 80)).
  rewrite slice_nat, startswith_firstn by (simpl; lia).
  rewrite <- andb_assoc. do 2 f_equal.
  unfold space_at. rewrite nth_error_firstn, nth_error_skipn. reflexivity.
Qed.

Lemma starts_increasing (md : list N) :
  StronglySorted Z.lt
    ((if header_atb md 0 then [0] else [])
       ++ map start1 (finditer boundary_pat md)).
Proof.
  pose proof (scan_sorted md (S (length md)) 0) as Hs.
  pose proof (scan_sound md (S (length md)) 0) as Hb.
  fold (finditer boundary_pat md) in Hs, Hb.
  destruct (header_atb md 0); [|exact Hs].
  simpl. constructor; [exact Hs|].
  eapply Forall_impl; [|exact Hb]. intros z (q & -> & Hq & _). lia.
Qed.

(** [find_record_starts] returns the starts in the order they are found:
    offset 0 when the document opens with a marker, then the matches of
    [finditer]. *)
Lemma find_record_starts_with_eq (iter : list Z -> list Z) (md : list N) :
  set_iteration iter ->
  find_record_starts_with iter md
  = (if header_atb md 0 then [0] else [])
      ++ map start1 (finditer boundary_pat md).
Proof.
  intros Hiter. unfold find_record_starts_with. cbv zeta.
  rewrite head_check, (sorted_set_iteration iter _ Hiter).
  replace (if header_atb md 0 then [] ++ [0] else [])
    with (if header_atb md 0 then [0] else [] : list Z)
    by now destruct (header_atb md 0).
  apply sorted_set_increasing, starts_increasing.
Qed.

Lemma set_iteration_nodup : set_iteration (nodup Z.eq_dec).
Proof. intros l. reflexivity. Qed.

Lemma find_record_starts_eq (md : list N) :
  find_record_starts md
  = (if header_atb md 0 then [0] else [])
      ++ map start1 (finditer boundary_pat md).
Proof. apply find_record_starts_with_eq, set_iteration_nodup. Qed.

Lemma find_record_starts_sorted (md : list N) :
  StronglySorted Z.lt (find_record_starts md).
Proof. rewrite find_record_starts_eq. apply starts_increasing. Qed.

(** ** Offsets *)

Lemma char_at_nat (md : list N) (n : nat) :
  char_at md (Z.of_nat n) = nth_error md n.
Proof.
  unfold char_at.
  assert ((Z.of_nat n <? 0) = false) as -> by (apply Z.ltb_ge; lia).
  now rewrite Nat2Z.id.
Qed.

Lemma char_at_Some (md : list N) (q : Z) (c : N) :
  char_at md q = Some c -> exists n, q = Z.of_nat n /\ nth_error md n = Some c.
Proof.
  unfold char_at. destruct (q <? 0) eqn:E; [discriminate|].
  apply Z.ltb_ge in E. intros H. exists (Z.to_nat q). split; [lia|exact H].
Qed.

Lemma chr_at_true (md : list N) (n : nat) (c : N) :
  chr_at md n c = true <-> nth_error md n = Some c.
Proof.
  unfold chr_at. destruct (nth_error md n) as [d|].
  - rewrite N.eqb_eq. split; congruence.
  - split; discriminate.
Qed.

Lemma space_at_true (md : list N) (n : nat) :
  space_at md n = true <->
  exists c, nth_error md n = Some c /\ is_space c = true.
Proof.
  unfold space_at. destruct (nth_error md n) as [d|].
  - split; [intros H; now exists d|intros (c & [= ->] & H); exact H].
  - split; [discriminate|intros (c & H & _); discriminate].
Qed.

(** The marker as a proposition on integer offsets and as a test on
    indices. *)
Lemma header_at_nat (md : list N) (n : nat) :
  header_at md (Z.of_nat n) <-> header_atb md n = true.
Proof.
  unfold header_at, header_atb. rewrite Nat2Z.id, andb_true_iff, space_at_true.
  replace (Z.of_nat n + 7) with (Z.of_nat (n + 7)) by lia.
  rewrite char_at_nat. split.
  - intros (_ & H1 & H2). now split.
  - intros (H1 & H2). split; [lia|now split].
Qed.

Lemma header_at_nonneg (md : list N) (q : Z) : header_at md q -> 0 <= q.
Proof. now intros (H & _). Qed.

Lemma boundaryb_true (md : list N) (n : nat) :
  boundaryb md n = true <->
  char_at md (Z.of_nat n - 2) = Some LF
  /\ char_at md (Z.of_nat n - 1) = Some LF
  /\ header_at md (Z.of_nat n).
Proof.
  split.
  - intros H. apply boundaryb_inv in H as (H2 & Ha & Hb & Hh).
    replace (Z.of_nat n - 2) with (Z.of_nat (n - 2)) by lia.
    replace (Z.of_nat n - 1) with (Z.of_nat (n - 1)) by lia.
    rewrite !char_at_nat, <- !chr_at_true, header_at_nat. auto.
  - intros (Ha & Hb & Hh).
    apply char_at_Some in Ha as (a & Ea & Ha).
    apply char_at_Some in Hb as (b & Eb & Hb).
    assert (a = (n - 2)%nat) by lia. assert (b = (n - 1)%nat) by lia.
    subst a b. unfold boundaryb.
    apply chr_at_true in Ha, Hb. apply header_at_nat in Hh.
    rewrite Ha, Hb, Hh.
    assert (Nat.leb 2 n = true) as -> by (apply Nat.leb_le; lia).
    reflexivity.
Qed.

(** Membership in the result of [find_record_starts]. *)
Lemma find_record_starts_In (md : list N) (q : Z) :
  In q (find_record_starts md) <->
  (q = 0 /\ header_at md 0)
  \/ (char_at md (q - 2) = Some LF /\ char_at md (q - 1) = Some LF
      /\ header_at md q).
Proof.
  rewrite find_record_starts_eq, in_app_iff. split.
  - intros [H|H].
    + left. destruct (header_atb md 0) eqn:E; [|contradiction].
      destruct H as [<-|[]]. split; [reflexivity|].
      now apply (header_at_nat md 0).
    + right. pose proof (scan_sound md (S (length md)) 0) as Hs.
      rewrite Forall_forall in Hs. destruct (Hs q H) as (n & -> & _ & Hb).
      now apply boundaryb_true.
  - intros [[-> H]|(Ha & Hb & Hh)].
    + left. apply (header_at_nat md 0) in H. rewrite H. now left.
    + right. pose proof (header_at_nonneg md q Hh) as Hq.
      pose proof Ha as Ha'. apply char_at_Some in Ha' as (a & Ea & _).
      replace q with (Z.of_nat (Z.to_nat q)) in * by lia.
      apply scan_complete; [lia|lia|].
      apply boundaryb_true. auto.
Qed.

Lemma find_record_starts_bounds (md : list N) :
  Forall (fun z => 0 <= z <= len md) (find_record_starts md).
Proof.
  apply Forall_forall. intros q Hq.
  apply find_record_starts_In in Hq as [[-> _]|(_ & _ & Hh)].
  - unfold len. lia.
  - pose proof (header_at_nonneg md q Hh) as H0.
    replace q with (Z.of_nat (Z.to_nat q)) in Hh by lia.
    apply header_at_nat, header_chars in Hh as (Hd & _).
    apply chr_at_length in Hd. unfold len. lia.
Qed.

(** ** Records *)

Lemma slice_records_from (md : list N) (suf : list Z) :
  forall pre : list Z,
  map (fun '(i, st) =>
         slice md st
               (if Nat.ltb (i + 1) (length (pre ++ suf))
                then nth (i + 1) (pre ++ suf) 0
                else len md))
      (combine (seq (length pre) (length suf)) suf)
  = records_from md suf.
Proof.
  induction suf as [|st rest IH]; intros pre; [reflexivity|].
  cbn [length seq combine map records_from]. f_equal.
  - f_equal. rewrite length_app.
    destruct rest as [|e rest']; cbn [length];
      match goal with
      | |- context [Nat.ltb ?a ?b] => destruct (Nat.ltb_spec a b)
      end; try lia; try reflexivity.
    rewrite app_nth2 by lia.
    replace (length pre + 1 - length pre)%nat with 1%nat by lia. reflexivity.
  - specialize (IH (pre ++ [st])).
    rewrite <- app_assoc in IH. cbn [app] in IH.
    rewrite (length_app pre [st]) in IH. cbn [length] in IH.
    rewrite Nat.add_1_r in IH. exact IH.
Qed.

(** The index loop of [split_into_records] and the recursion agree. *)
Lemma slice_records_rec (md : list N) (starts : list Z) :
  slice_records md starts = records_from md starts.
Proof. exact (slice_records_from md starts []). Qed.

Lemma firstn_add_skipn {A} (n m : nat) (l : list A) :
  firstn n l ++ firstn m (skipn n l) = firstn (n + m) l.
Proof.
  revert l. induction n as [|n IH]; intros [|x l]; simpl;
    rewrite ?firstn_nil; try reflexivity.
  now rewrite IH.
Qed.

(** Adjacent slices join. *)
Lemma slice_join (md : list N) (a b c : Z) :
  0 <= a <= b -> b <= c ->
  slice md a b ++ slice md b c = slice md a c.
Proof.
  intros Hab Hbc.
  replace a with (Z.of_nat (Z.to_nat a)) by lia.
  replace b with (Z.of_nat (Z.to_nat b)) by lia.
  replace c with (Z.of_nat (Z.to_nat c)) by lia.
  rewrite !slice_nat.
  replace (skipn (Z.to_nat b) md)
    with (skipn (Z.to_nat b - Z.to_nat a) (skipn (Z.to_nat a) md))
    by (rewrite skipn_skipn; f_equal; lia).
  rewrite firstn_add_skipn. f_equal. lia.
Qed.

Lemma slice_to_end (md : list N) (n : nat) :
  slice md (Z.of_nat n) (len md) = skipn n md.
Proof.
  unfold len. rewrite slice_nat. apply firstn_all2.
  rewrite length_skipn. lia.
Qed.

Lemma slice_whole (md : list N) : slice md 0 (len md) = md.
Proof. exact (slice_to_end md 0). Qed.

Lemma slice_encodable (md : list N) (a b : Z) :
  encodable md -> encodable (slice md a b).
Proof.
  intros H. unfold slice.
  set (i := Z.to_nat (clamp (len md) a)). set (k := Z.to_nat _).
  rewrite <- (firstn_skipn i md) in H. apply encodable_app in H as [_ H].
  rewrite <- (firstn_skipn k (skipn i md)) in H.
  now apply encodable_app in H as [H _].
Qed.

(** The records of increasing starts make up the document from the first
    start on. *)
Lemma records_from_concat (md : list N) (rest : list Z) :
  forall s0 : Z,
  StronglySorted Z.lt (s0 :: rest) ->
  Forall (fun z => 0 <= z <= len md) (s0 :: rest) ->
  concat (records_from md (s0 :: rest)) = slice md s0 (len md).
Proof.
  induction rest as [|e rest IH]; intros s0 Hs Hb.
  - simpl. apply app_nil_r.
  - inversion Hs as [|? ? Hs' Hlt]; subst.
    inversion Hb as [|? ? Hb0 Hb']; subst.
    inversion Hlt as [|? ? Hse _]; subst.
    inversion Hb' as [|? ? Hbe _]; subst.
    change (concat (records_from md (s0 :: e :: rest)))
      with (slice md s0 e ++ concat (records_from md (e :: rest))).
    rewrite (IH e Hs' Hb'). apply slice_join; lia.
Qed.

Lemma records_from_encodable (md : list N) (starts : list Z) :
  encodable md -> Forall encodable (records_from md starts).
Proof.
  intros H. induction starts as [|st rest IH]; simpl; constructor; auto.
  now apply slice_encodable.
Qed.

Lemma split_into_records_encodable (md : list N) :
  encodable md -> Forall encodable (split_into_records md).
Proof.
  intros H. unfold split_into_records, split_into_records_with.
  destruct (find_record_starts_with _ md) as [|s0 rest] eqn:E.
  - now constructor.
  - rewrite slice_records_rec. now apply records_from_encodable.
Qed.

(** The records make up the document from the first boundary on, and the
    whole document when there is none. *)
Lemma split_into_records_concat (md : list N) :
  concat (split_into_records md)
  = match find_record_starts md with
    | [] => md
    | s0 :: _ => slice md s0 (len md)
    end.
Proof.
  unfold split_into_records, split_into_records_with.
  fold (find_record_starts md).
  pose proof (find_record_starts_sorted md) as Hs.
  pose proof (find_record_starts_bounds md) as Hb.
  destruct (find_record_starts md) as [|s0 rest].
  - simpl. apply app_nil_r.
  - rewrite slice_records_rec. now apply records_from_concat.
Qed.

(** The iteration order of [set] does not reach the records. *)
Lemma split_into_records_with_eq (iter : list Z -> list Z) (md : list N) :
  set_iteration iter ->
  split_into_records_with iter md = split_into_records md.
Proof.
  intros Hiter. unfold split_into_records, split_into_records_with.
  rewrite (find_record_starts_with_eq iter md Hiter).
  now rewrite (find_record_starts_with_eq _ md set_iteration_nodup).
Qed.

(** ** The whole run *)

(** On a document decoded from UTF-8 the chunks are produced, and they
    concatenate to the document from its first boundary on. *)
Lemma chunks_of_spec (md : list N) (max_bytes : Z) :
  encodable md ->
  exists cs,
    chunks_of md max_bytes = Ok cs
    /\ concat cs = match find_record_starts md with
                   | [] => md
                   | s0 :: _ => slice md s0 (len md)
                   end
    /\ Forall (chunk_ok max_bytes (split_into_records md)) cs.
Proof.
  intros He. unfold chunks_of.
  destruct (chunker_spec (split_into_records md) max_bytes)
    as (cs & Hrun & Hcat & Hok).
  { now apply split_into_records_encodable. }
  exists cs. rewrite <- split_into_records_concat. auto.
Qed.

(* ------------------------------------------------------------------ *)
(** * The claims *)

(** Where the round trip does hold: a document without boundary, or one
    that opens with a record header, is the concatenation of its chunks. *)
Lemma roundtrip_without_preamble (md : list N) (max_bytes : Z) :
  encodable md ->
  find_record_starts md = [] \/ In 0 (find_record_starts md) ->
  exists cs, chunks_of md max_bytes = Ok cs /\ concat cs = md.
Proof.
  intros He Hcase.
  destruct (chunks_of_spec md max_bytes He) as (cs & Hrun & Hcat & _).
  exists cs. split; [exact Hrun|]. rewrite Hcat.
  pose proof (find_record_starts_sorted md) as Hs.
  pose proof (find_record_starts_bounds md) as Hb.
  destruct (find_record_starts md) as [|s0 rest]; [reflexivity|].
  destruct Hcase as [Hnil|Hin]; [discriminate|].
  assert (s0 = 0) as ->.
  { inversion Hs as [|? ? _ Hlt]; subst. inversion Hb as [|? ? H0 Hbr]; subst.
    destruct Hin as [->|Hin]; [reflexivity|].
    rewrite Forall_forall in Hlt, Hbr.
    pose proof (Hlt _ Hin). lia. }
  apply slice_whole.
Qed.

(** C1.  The round trip fails on a document with text before its first
    record header: for ["intro\n\n---\nid: 1\nfoo\n"] and a budget of 1000
    bytes the chunker returns the one chunk ["---\nid: 1\nfoo\n"], and the
    concatenation of the chunks is not the document: ["intro\n\n"] is
    lost. *)
Theorem roundtrip_loses_preamble :
  chunks_of (py "intro\n\n---\nid: 1\nfoo\n") 1000
  = Ok [py "---\nid: 1\nfoo\n"]
  /\ concat [py "---\nid: 1\nfoo\n"] <> py "intro\n\n---\nid: 1\nfoo\n".
Proof. split; [vm_compute; reflexivity|discriminate]. Qed.

(** C2, as stated: the rule with two blank lines fails on
    ["foo\n\n---\nid: 2\n"], where offset 5 is reported after one blank
    line. *)
Lemma blank_line_rule_fails : ~ blank_line_rule (py "foo\n\n---\nid: 2\n").
Proof.
  intros H. specialize (H 5).
  assert (Hin : In 5 (find_record_starts (py "foo\n\n---\nid: 2\n")))
    by (vm_compute; now left).
  apply H in Hin as [[Hq _]|[[_ [_ [Hq|Hc]]] _]].
  - discriminate.
  - discriminate.
  - vm_compute in Hc. discriminate.
Qed.

(** C2, amended.  [find_record_starts] reports offset 0 exactly when the
    document opens with a record-header marker, and otherwise exactly the
    offsets of a marker whose two preceding characters are newlines; on
    ["---\nid: 1\nfoo\n\n\n---\nid: 2\nbar\n"] it reports 0 and 16, and
    the two records are cut right before the second [---]. *)
Theorem find_record_starts_rule :
  (forall (md : list N) (q : Z),
      In q (find_record_starts md) <->
      (q = 0 /\ header_at md 0)
      \/ (char_at md (q - 2) = Some LF /\ char_at md (q - 1) = Some LF
          /\ header_at md q))
  /\ find_record_starts doc2 = [0; 16]
  /\ split_into_records doc2
     = [py "---\nid: 1\nfoo\n\n\n"; py "---\nid: 2\nbar\n"].
Proof.
  split; [exact find_record_starts_In|].
  split; vm_compute; reflexivity.
Qed.

(** C3.  On every list of records and every budget the chunker returns
    chunks that concatenate, in order, to the concatenation of the records;
    each chunk fits the budget, or is over it and is one line of a record
    that is itself over the budget. *)
Theorem budget_respected (records : list (list N)) (max_bytes : Z)
  (Henc : Forall encodable records) :
  exists cs,
    chunk_records_by_size records max_bytes = Ok cs
    /\ concat cs = concat records
    /\ Forall (fun c =>
                 fits max_bytes c
                 \/ (oversized max_bytes c
                     /\ exists rec, In rec records
                                    /\ oversized max_bytes rec
                                    /\ In c (splitlines rec)))
              cs.
Proof.
  destruct (chunker_spec records max_bytes Henc) as (cs & Hrun & Hcat & Hok).
  exists cs. split; [exact Hrun|]. split; [exact Hcat|].
  eapply Forall_impl; [|exact Hok]. intros c [_ H]. exact H.
Qed.

Lemma budget_respected_witness :
  Forall encodable [py "ab\ncdefgh\n"; py "xy"; py "z"]
  /\ exists cs,
       chunk_records_by_size [py "ab\ncdefgh\n"; py "xy"; py "z"] 4 = Ok cs
       /\ concat cs = concat [py "ab\ncdefgh\n"; py "xy"; py "z"]
       /\ Forall (fun c =>
                    fits 4 c
                    \/ (oversized 4 c
                        /\ exists rec,
                             In rec [py "ab\ncdefgh\n"; py "xy"; py "z"]
                             /\ oversized 4 rec
                             /\ In c (splitlines rec)))
                 cs.
Proof.
  split; [repeat constructor|].
  apply (budget_respected [py "ab\ncdefgh\n"; py "xy"; py "z"] 4).
  repeat constructor.
Defined.

(** C4.  A record whose encoded length exceeds the budget: the loop body
    returns (it raises nothing, at any budget, zero and negative ones
    included); the accumulator, when not empty, is flushed first; then the
    sub-chunks follow, which are the concatenations of consecutive groups
    of the record's lines, each group within the budget or made of one
    line that is over it; the accumulator is left empty.  A list holding
    that record alone yields exactly the sub-chunks. *)
Theorem oversized_record_is_split (max_bytes : Z) (a : acc) (rec : list N)
  (n : Z) (Hn : utf8_len rec = Ok n) (Hgt : max_bytes < n) :
  exists gs,
    record_step max_bytes a rec
    = Ok (Acc (chunks a ++ (if truthy (cur a) then [cur a] else [])
                 ++ map (@concat N) gs)
              []
              (if truthy (cur a) then 0 else cur_bytes a))
    /\ concat gs = splitlines rec
    /\ Forall (line_group max_bytes) gs
    /\ chunk_records_by_size [rec] max_bytes = Ok (map (@concat N) gs).
Proof.
  destruct (record_step_oversized max_bytes rec n Hn Hgt)
    as (gs & Hstep & Hcat & Hgs).
  exists gs. repeat split; auto.
  unfold chunk_records_by_size. cbn [for_each]. rewrite (Hstep acc0).
  reflexivity.
Qed.

Lemma oversized_record_is_split_witness :
  utf8_len (py "ab\ncd") = Ok 5 /\ 0 < 5
  /\ exists gs,
       record_step 0 (Acc [py "old"] (py "x") 1) (py "ab\ncd")
       = Ok (Acc ([py "old"] ++ [py "x"] ++ map (@concat N) gs) [] 0)
       /\ concat gs = splitlines (py "ab\ncd")
       /\ Forall (line_group 0) gs
       /\ chunk_records_by_size [py "ab\ncd"] 0 = Ok (map (@concat N) gs).
Proof.
  split; [reflexivity|]. split; [lia|].
  apply (oversized_record_is_split 0 (Acc [py "old"] (py "x") 1)
                                   (py "ab\ncd") 5);
    [reflexivity|lia].
Defined.

(** C5.  A record that fits the budget: when the accumulator is not empty
    and would pass the budget with the record, the accumulator is flushed
    and the record opens a new one; otherwise the record is appended to
    the accumulator.  Three records of 400 bytes each under a budget of
    1000 bytes give the chunks [rec1 + rec2] and [rec3], and not [rec1],
    [rec2 + rec3]. *)
Theorem greedy_packing (max_bytes : Z) (a : acc) (rec : list N) (n : Z)
  (r1 r2 r3 : list N)
  (Hn : utf8_len rec = Ok n) (Hle : n <= max_bytes)
  (H1 : utf8_len r1 = Ok 400) (H2 : utf8_len r2 = Ok 400)
  (H3 : utf8_len r3 = Ok 400) :
  record_step max_bytes a rec
  = Ok (if (cur_bytes a + n >? max_bytes) && truthy (cur a)
        then Acc (chunks a ++ [cur a]) rec n
        else Acc (chunks a) (cur a ++ rec) (cur_bytes a + n))
  /\ chunk_records_by_size [r1; r2; r3] 1000 = Ok [r1 ++ r2; r3]
  /\ [r1 ++ r2; r3] <> [r1; r2 ++ r3].
Proof.
  split; [now apply record_step_fits|].
  assert (Hne : forall r, utf8_len r = Ok 400 -> r <> []).
  { intros r Hr ->. discriminate Hr. }
  split.
  - assert (S1 : record_step 1000 acc0 r1 = Ok (Acc [] r1 400))
      by (rewrite (record_step_fits 1000 acc0 r1 400 H1) by lia; reflexivity).
    assert (S2 : record_step 1000 (Acc [] r1 400) r2
                 = Ok (Acc [] (r1 ++ r2) 800))
      by (rewrite (record_step_fits 1000 _ r2 400 H2) by lia; reflexivity).
    assert (S3 : record_step 1000 (Acc [] (r1 ++ r2) 800) r3
                 = Ok (Acc [r1 ++ r2] r3 400)).
    { rewrite (record_step_fits 1000 _ r3 400 H3) by lia. cbn [cur cur_bytes].
      rewrite (truthy_app_r r1 r2 (Hne r2 H2)). reflexivity. }
    unfold chunk_records_by_size. cbn [for_each].
    rewrite S1, bind_Ok, S2, bind_Ok, S3, !bind_Ok.
    unfold push_current. cbn [cur chunks].
    assert (truthy r3 = true) as -> by (apply truthy_true, Hne, H3).
    reflexivity.
  - intros E. injection E as E _.
    rewrite <- (app_nil_r r1) in E at 2. apply app_inv_head in E.
    now apply (Hne r2 H2).
Qed.

Lemma greedy_packing_witness :
  utf8_len (py "abc") = Ok 3 /\ 3 <= 10
  /\ utf8_len (repeat 97%N 400) = Ok 400
  /\ utf8_len (repeat 98%N 400) = Ok 400
  /\ utf8_len (repeat 99%N 400) = Ok 400
  /\ record_step 10 (Acc [] (py "12345678") 8) (py "abc")
     = Ok (Acc [py "12345678"] (py "abc") 3)
  /\ chunk_records_by_size
       [repeat 97%N 400; repeat 98%N 400; repeat 99%N 400] 1000
     = Ok [repeat 97%N 400 ++ repeat 98%N 400; repeat 99%N 400]
  /\ [repeat 97%N 400 ++ repeat 98%N 400; repeat 99%N 400]
     <> [repeat 97%N 400; repeat 98%N 400 ++ repeat 99%N 400].
Proof.
  split; [reflexivity|]. split; [lia|].
  split; [vm_compute; reflexivity|].
  split; [vm_compute; reflexivity|].
  split; [vm_compute; reflexivity|].
  apply (greedy_packing 10 (Acc [] (py "12345678") 8) (py "abc") 3
                        (repeat 97%N 400) (repeat 98%N 400)
                        (repeat 99%N 400));
    [reflexivity|lia|vm_compute; reflexivity|vm_compute; reflexivity
    |vm_compute; reflexivity].
Defined.

(** C6, as stated: the empty document has no boundary and fits the budget,
    yet it yields no chunk at all. *)
Lemma empty_document_has_no_chunk :
  find_record_starts [] = [] /\ fits 1000 []
  /\ ~ exists c, chunks_of [] 1000 = Ok [c].
Proof.
  split; [reflexivity|]. split.
  - exists 0. split; [reflexivity|lia].
  - intros (c & H). vm_compute in H. discriminate.
Qed.

(** C6, amended.  A document without boundary is its own single record.
    When it fits the budget it yields one chunk, itself, unless it is
    empty, in which case it yields no chunk; when it does not fit, it
    yields the output of the line split, which is made of consecutive
    groups of its lines. *)
Theorem no_boundary_document (md : list N) (max_bytes n : Z)
  (Hnone : find_record_starts md = []) (Hn : utf8_len md = Ok n) :
  split_into_records md = [md]
  /\ chunks_of md max_bytes
     = (if n <=? max_bytes
        then Ok (if truthy md then [md] else [])
        else split_oversized max_bytes [] md)
  /\ exists gs,
       split_oversized max_bytes [] md = Ok (map (@concat N) gs)
       /\ concat gs = splitlines md
       /\ Forall (line_group max_bytes) gs.
Proof.
  assert (Hrec : split_into_records md = [md]).
  { unfold split_into_records, split_into_records_with.
    fold (find_record_starts md). now rewrite Hnone. }
  split; [exact Hrec|]. split.
  - unfold chunks_of. rewrite Hrec. unfold chunk_records_by_size.
    cbn [for_each]. destruct (n <=? max_bytes) eqn:E.
    + apply Z.leb_le in E.
      rewrite (record_step_fits max_bytes acc0 md n Hn E).
      cbn [acc0 cur cur_bytes chunks truthy]. rewrite andb_false_r.
      rewrite !bind_Ok. unfold push_current. cbn [cur chunks app].
      now destruct (truthy md).
    + apply Z.leb_gt in E. unfold record_step. rewrite Hn, bind_Ok.
      assert ((n >? max_bytes) = true) as ->
        by (rewrite Z.gtb_ltb; apply Z.ltb_lt; lia).
      change (push_current acc0) with acc0. cbn [acc0 chunks cur cur_bytes].
      now destruct (split_oversized max_bytes [] md).
  - apply utf8_len_inv in Hn as [He _].
    destruct (split_oversized_groups max_bytes md He) as (gs & Hrun & H).
    exists gs. split; [apply (Hrun [])|exact H].
Qed.

Lemma no_boundary_document_witness :
  find_record_starts (py "just text\n") = []
  /\ utf8_len (py "just text\n") = Ok 10
  /\ split_into_records (py "just text\n") = [py "just text\n"]
  /\ chunks_of (py "just text\n") 1000 = Ok [py "just text\n"]
  /\ exists gs,
       split_oversized 1000 [] (py "just text\n") = Ok (map (@concat N) gs)
       /\ concat gs = splitlines (py "just text\n")
       /\ Forall (line_group 1000) gs.
Proof.
  split; [reflexivity|]. split; [reflexivity|].
  apply (no_boundary_document (py "just text\n") 1000 10); reflexivity.
Defined.

(** C7, as stated: with a budget of 20 bytes the first part file of the
    example document ends with three newlines. *)
Lemma part_file_with_three_newlines :
  part_files doc2 20
  = Ok [py "---\nid: 1\nfoo\n\n\n"; py "---\nid: 2\nbar\n"]
  /\ ~ one_trailing_LF (py "---\nid: 1\nfoo\n\n\n").
Proof.
  split; [vm_compute; reflexivity|].
  intros [_ H]. vm_compute in H. discriminate.
Qed.

(** C7, amended.  What the writer serializes ends with a newline: a chunk
    that ends with a newline is written as it is, and a chunk that does
    not gets one newline appended and then ends with exactly one. *)
Theorem written_ends_with_newline (c : list N) :
  endswith_LF (written c) = true
  /\ ((endswith_LF c = true /\ written c = c)
      \/ (endswith_LF c = false /\ written c = c ++ [LF]
          /\ one_trailing_LF (written c))).
Proof.
  assert (Happ : endswith_LF (c ++ [LF]) = true).
  { unfold endswith_LF. rewrite rev_app_distr. reflexivity. }
  unfold written. destruct (endswith_LF c) eqn:E; cbn [negb].
  - split; [exact E|left; now split].
  - split; [exact Happ|right]. split; [reflexivity|]. split; [reflexivity|].
    split; [exact Happ|]. now rewrite removelast_last.
Qed.

Lemma set_iteration_rev : set_iteration (fun l => rev (nodup Z.eq_dec l)).
Proof. intros l. apply Permutation_sym, Permutation_rev. Qed.

(** C8.  Two runs on the same document and budget return the same
    chunks, whatever order [set] iterates in during each of them. *)
Theorem chunking_deterministic (iter1 iter2 : list Z -> list Z)
  (md : list N) (max_bytes : Z)
  (H1 : set_iteration iter1) (H2 : set_iteration iter2) :
  chunks_of_with iter1 md max_bytes = chunks_of_with iter2 md max_bytes.
Proof.
  unfold chunks_of_with.
  now rewrite (split_into_records_with_eq iter1 md H1),
              (split_into_records_with_eq iter2 md H2).
Qed.

Lemma chunking_deterministic_witness :
  chunks_of_with (nodup Z.eq_dec) doc2 20
  = chunks_of_with (fun l => rev (nodup Z.eq_dec l)) doc2 20.
Proof.
  apply (chunking_deterministic (nodup Z.eq_dec)
                                (fun l => rev (nodup Z.eq_dec l)) doc2 20).
  - exact set_iteration_nodup.
  - exact set_iteration_rev.
Defined.

(** C9.  When boundaries are found, the records concatenate to the part
    of the document that starts at the first boundary; the text before it
    is in no record. *)
Theorem records_start_at_first_boundary (md : list N) (s0 : Z)
  (rest : list Z) (Hstarts : find_record_starts md = s0 :: rest) :
  concat (split_into_records md) = slice md s0 (len md)
  /\ md = slice md 0 s0 ++ concat (split_into_records md)
  /\ 0 <= s0 <= len md.
Proof.
  pose proof (find_record_starts_bounds md) as Hb.
  rewrite Hstarts in Hb. inversion Hb as [|? ? H0 _]; subst.
  assert (Hcat : concat (split_into_records md) = slice md s0 (len md))
    by (rewrite split_into_records_concat, Hstarts; reflexivity).
  split; [exact Hcat|]. split; [|exact H0].
  rewrite Hcat, slice_join by lia. symmetry. apply slice_whole.
Qed.

Lemma records_start_at_first_boundary_witness :
  find_record_starts (py "intro\n\n---\nid: 1\nfoo\n") = [7]
  /\ concat (split_into_records (py "intro\n\n---\nid: 1\nfoo\n"))
     = slice (py "intro\n\n---\nid: 1\nfoo\n") 7
             (len (py "intro\n\n---\nid: 1\nfoo\n"))
  /\ py "intro\n\n---\nid: 1\nfoo\n"
     = slice (py "intro\n\n---\nid: 1\nfoo\n") 0 7
         ++ concat (split_into_records (py "intro\n\n---\nid: 1\nfoo\n"))
  /\ 0 <= 7 <= len (py "intro\n\n---\nid: 1\nfoo\n").
Proof.
  split; [reflexivity|].
  apply (records_start_at_first_boundary
           (py "intro\n\n---\nid: 1\nfoo\n") 7 []).
  reflexivity.
Defined.

(** C10.  Every chunk the chunker returns is a non-empty string; the
    empty document yields no chunk, hence no part file. *)
Theorem chunks_nonempty (records : list (list N)) (max_bytes : Z)
  (Henc : Forall encodable records) :
  (exists cs,
      chunk_records_by_size records max_bytes = Ok cs
      /\ Forall (fun c => c <> []) cs)
  /\ chunks_of [] max_bytes = Ok []
  /\ part_files [] max_bytes = Ok [].
Proof.
  split.
  - destruct (chunker_spec records max_bytes Henc) as (cs & Hrun & _ & Hok).
    exists cs. split; [exact Hrun|].
    eapply Forall_impl; [|exact Hok]. intros c [H _]. exact H.
  - assert (H : chunks_of [] max_bytes = Ok []).
    { unfold chunks_of.
      change (split_into_records []) with [@nil N].
      unfold chunk_records_by_size. cbn [for_each]. unfold record_step.
      change (utf8_len []) with (Ok 0). rewrite bind_Ok.
      destruct (0 >? max_bytes); [reflexivity|].
      destruct (cur_bytes acc0 + 0 >? max_bytes); reflexivity. }
    split; [exact H|]. unfold part_files. now rewrite H.
Qed.

Lemma chunks_nonempty_witness :
  Forall encodable [py "ab\ncdefgh\n"; []; py "xy"]
  /\ (exists cs,
         chunk_records_by_size [py "ab\ncdefgh\n"; []; py "xy"] 4 = Ok cs
         /\ Forall (fun c => c <> []) cs)
  /\ chunks_of [] 4 = Ok []
  /\ part_files [] 4 = Ok [].
Proof.
  split; [repeat constructor|].
  apply (chunks_nonempty [py "ab\ncdefgh\n"; []; py "xy"] 4).
  repeat constructor.
Defined.

(* ------------------------------------------------------------------ *)
(** * Further properties of the splitter *)

(** ** Starts and records *)

Section Starts.

Variable md : list N.

(** All seven fixed characters of a marker. *)
Lemma header_chars_all (i : nat) :
  header_atb md i = true ->
  chr_at md i 45%N = true /\ chr_at md (i + 1) 45%N = true
  /\ chr_at md (i + 2) 45%N = true /\ chr_at md (i + 3) LF = true
  /\ chr_at md (i + 4) 105%N = true /\ chr_at md (i + 5) 100%N = true
  /\ chr_at md (i + 6) 58%N = true /\ (i + 8 <= length md)%nat.
Proof.
  intros Hh. pose proof (header_chars md i Hh) as (H0 & H1 & H2 & H3 & H4).
  repeat (split; [assumption|]).
  unfold header_atb in Hh. apply andb_prop in Hh as [Hs Hw].
  change (py "---\nid:") with ([45; 45; 45; LF; 105]%N ++ [100; 58]%N) in Hs.
  rewrite startswith_skipn_app in Hs. apply andb_prop in Hs as [_ Hs].
  change (length [45; 45; 45; LF; 105]%N) with 5%nat in Hs.
  rewrite !startswith_skipn_cons in Hs.
  apply andb_prop in Hs as [H5 Hs]. apply andb_prop in Hs as [H6 _].
  replace (S (i + 5)) with (i + 6)%nat in H6 by lia.
  repeat (split; [assumption|]).
  apply space_at_true in Hw as (c & Hc & _).
  assert (i + 7 < length md)%nat; [|lia].
  apply nth_error_Some. congruence.
Qed.

Lemma find_record_starts_ok :
  Forall (start_ok md) (find_record_starts md).
Proof.
  apply Forall_forall. intros q Hq.
  apply find_record_starts_In in Hq as [[-> H]|(Ha & Hb & Hh)].
  - split; [exact H|now left].
  - split; [exact Hh|right; now split].
Qed.

(** Two starts are at least nine characters apart. *)
Lemma start_gap (st e : Z) :
  start_ok md st -> start_ok md e -> st < e -> st + 9 <= e.
Proof.
  intros [Hst _] [He Hpre] Hlt.
  pose proof (header_at_nonneg md st Hst) as Hst0.
  destruct Hpre as [->|[Ha Hb]]; [lia|].
  replace st with (Z.of_nat (Z.to_nat st)) in Hst by lia.
  apply header_at_nat, header_chars_all in Hst
    as (H0 & H1 & H2 & H3 & H4 & H5 & H6 & _).
  apply char_at_Some in Ha as (a & Ea & Ha).
  apply char_at_Some in Hb as (b & Eb & Hb).
  apply chr_at_true in Ha, Hb.
  destruct (Z_le_gt_dec (st + 9) e) as [Hok|Hnear]; [exact Hok|exfalso].
  set (n := Z.to_nat st) in *.
  assert (Hcases : (b = n \/ b = n + 1 \/ b = n + 2 \/ a = n + 2
                    \/ b = n + 4 \/ b = n + 5 \/ b = n + 6
                    \/ a = n + 6)%nat) by lia.
  destruct Hcases as [->|[->|[->|[->|[->|[->|[->| ->]]]]]]].
  - apply (chr_at_clash md _ _ _ _ Hb H0); [lia|discriminate].
  - apply (chr_at_clash md _ _ _ _ Hb H1); [lia|discriminate].
  - apply (chr_at_clash md _ _ _ _ Hb H2); [lia|discriminate].
  - apply (chr_at_clash md _ _ _ _ Ha H2); [lia|discriminate].
  - apply (chr_at_clash md _ _ _ _ Hb H4); [lia|discriminate].
  - apply (chr_at_clash md _ _ _ _ Hb H5); [lia|discriminate].
  - apply (chr_at_clash md _ _ _ _ Hb H6); [lia|discriminate].
  - apply (chr_at_clash md _ _ _ _ Ha H6); [lia|discriminate].
Qed.

End Starts.

Lemma slice_header (md : list N) (st e : Z) :
  header_at md st -> st + 8 <= e -> header_at (slice md st e) 0.
Proof.
  intros (H0 & Hs & c & Hc & Hw) He.
  replace st with (Z.of_nat (Z.to_nat st)) by lia.
  replace e with (Z.of_nat (Z.to_nat e)) by lia.
  rewrite slice_nat. set (k := (Z.to_nat e - Z.to_nat st)%nat).
  assert (Hk : (8 <= k)%nat) by (unfold k; lia).
  split; [lia|]. split.
  - change (Z.to_nat 0) with 0%nat. change (skipn 0 ?l) with l.
    rewrite startswith_firstn by (simpl; lia). exact Hs.
  - exists c. split; [|exact Hw].
    change (0 + 7) with (Z.of_nat 7). rewrite char_at_nat.
    rewrite nth_error_firstn.
    assert (Nat.ltb 7 k = true) as -> by (apply Nat.ltb_lt; lia).
    rewrite nth_error_skipn.
    replace (st + 7) with (Z.of_nat (Z.to_nat st + 7)) in Hc by lia.
    now rewrite char_at_nat in Hc.
Qed.

Lemma slice_ends_blank (md : list N) (st e : Z) :
  0 <= st -> st + 2 <= e ->
  char_at md (e - 2) = Some LF -> char_at md (e - 1) = Some LF ->
  endswith (slice md st e) (py "\n\n") = true.
Proof.
  intros H0 Hle Ha Hb.
  apply char_at_Some in Ha as (a & Ea & Ha).
  apply char_at_Some in Hb as (b & Eb & Hb).
  replace st with (Z.of_nat (Z.to_nat st)) by lia.
  replace e with (Z.of_nat (Z.to_nat e)) by lia.
  rewrite slice_nat. set (n := Z.to_nat st). 
  replace (Z.to_nat e - n)%nat with ((a - n) + 2)%nat by lia.
  rewrite <- firstn_add_skipn, skipn_skipn.
  replace (a - n + n)%nat with a by lia.
  rewrite (skipn_nth_error md a), Ha. cbn [firstn].
  rewrite (skipn_nth_error md (S a)).
  replace (S a) with b by lia. rewrite Hb. cbn [firstn].
  unfold endswith. rewrite rev_app_distr.
  change (rev [LF; LF]) with [LF; LF]. change (rev (py "\n\n")) with [LF; LF].
  now destruct (rev (firstn (a - n) (skipn n md))).
Qed.

(** Records cut at admissible starts open with a marker, and every record
    but the last closes with two newlines. *)
Lemma records_from_shape (md : list N) (starts : list Z) :
  StronglySorted Z.lt starts ->
  Forall (start_ok md) starts ->
  Forall (fun q => q + 8 <= len md) starts ->
  length (records_from md starts) = length starts
  /\ Forall (fun r => header_at r 0) (records_from md starts)
  /\ Forall (fun r => endswith r (py "\n\n") = true)
            (removelast (records_from md starts)).
Proof.
  induction starts as [|st rest IH]; intros Hs Hok Hb.
  - repeat split; constructor.
  - inversion Hs as [|? ? Hs' Hlt]; subst.
    inversion Hok as [|? ? Hst Hok']; subst.
    inversion Hb as [|? ? Hbst Hb']; subst.
    destruct (IH Hs' Hok' Hb') as (IHl & IHh & IHe).
    destruct rest as [|e rest'].
    + cbn [records_from length removelast]. repeat split; try constructor.
      * apply slice_header; [apply Hst|exact Hbst].
      * constructor.
    + inversion Hlt as [|? ? Hse _]; subst.
      inversion Hok' as [|? ? He _]; subst.
      pose proof (start_gap md st e Hst He Hse) as Hgap.
      change (records_from md (st :: e :: rest'))
        with (slice md st e :: records_from md (e :: rest')).
      split; [cbn [length] in *; lia|]. split.
      * constructor; [|exact IHh]. apply slice_header; [apply Hst|lia].
      * change (records_from md (e :: rest'))
          with (slice md e (match rest' with e' :: _ => e' | [] => len md end)
                  :: records_from md rest') in *.
        cbn [removelast]. cbn [removelast] in IHe.
        constructor; [|exact IHe].
        destruct He as [Hhe [->|[Ha Hb0]]];
          [pose proof (header_at_nonneg md st (proj1 Hst)); lia|].
        apply slice_ends_blank; auto;
          [apply (header_at_nonneg md st), Hst|lia].
Qed.

Lemma find_record_starts_room (md : list N) :
  Forall (fun q => q + 8 <= len md) (find_record_starts md).
Proof.
  eapply Forall_impl; [|apply find_record_starts_ok].
  intros q [Hh _]. pose proof (header_at_nonneg md q Hh) as H0.
  replace q with (Z.of_nat (Z.to_nat q)) in Hh by lia.
  apply header_at_nat, header_chars_all in Hh.
  unfold len. lia.
Qed.

(** X1.  The starts [find_record_starts] returns increase strictly, any
    two are at least nine characters apart, and each leaves room for a
    whole marker before the end of the document. *)
Theorem starts_increase_in_range (md : list N) :
  StronglySorted (fun a b => a + 9 <= b) (find_record_starts md)
  /\ Forall (fun q => 0 <= q /\ q + 8 <= len md) (find_record_starts md).
Proof.
  pose proof (find_record_starts_sorted md) as Hs.
  pose proof (find_record_starts_ok md) as Hok.
  pose proof (find_record_starts_room md) as Hr.
  split.
  - induction Hs as [|a l Hs IH Hall]; [constructor|].
    inversion Hok as [|? ? Ha Hok']; subst.
    inversion Hr as [|? ? _ Hr']; subst.
    constructor; [now apply IH|].
    rewrite Forall_forall in Hall, Hok'. apply Forall_forall.
    intros b Hb. apply (start_gap md a b); auto.
  - rewrite Forall_forall in *. intros q Hq. split; [|now apply Hr].
    apply (header_at_nonneg md q), Hok, Hq.
Qed.

(** X2.  When boundaries are found there is one record per start; every
    record opens with a record-header marker, and every record but the
    last closes with two newlines. *)
Theorem records_open_with_marker (md : list N) (s0 : Z) (rest : list Z)
  (Hstarts : find_record_starts md = s0 :: rest) :
  length (split_into_records md) = S (length rest)
  /\ Forall (fun r => header_at r 0) (split_into_records md)
  /\ Forall (fun r => endswith r (py "\n\n") = true)
            (removelast (split_into_records md)).
Proof.
  pose proof (records_from_shape md (find_record_starts md)
                (find_record_starts_sorted md) (find_record_starts_ok md)
                (find_record_starts_room md)) as H.
  unfold split_into_records, split_into_records_with.
  fold (find_record_starts md). rewrite Hstarts in *.
  rewrite slice_records_rec. exact H.
Qed.

Lemma records_open_with_marker_witness :
  find_record_starts doc2 = [0; 16]
  /\ length (split_into_records doc2) = 2%nat
  /\ Forall (fun r => header_at r 0) (split_into_records doc2)
  /\ Forall (fun r => endswith r (py "\n\n") = true)
            (removelast (split_into_records doc2)).
Proof.
  split; [reflexivity|].
  apply (records_open_with_marker doc2 0 [16]). reflexivity.
Defined.

(** ** The chunker: errors and edge budgets *)

Lemma fits_inv (max_bytes : Z) (c : list N) :
  fits max_bytes c -> encodable c /\ size c <= max_bytes.
Proof.
  intros (n & Hn & Hle). apply utf8_len_inv in Hn as [He ->]. now split.
Qed.

Lemma surrogate_or_encodable (r : list N) :
  encodable r \/ Exists (fun c => is_surrogate c = true) r.
Proof.
  induction r as [|c t [IH|IH]].
  - left. constructor.
  - destruct (is_surrogate c) eqn:E.
    + right. now constructor.
    + left. now constructor.
  - right. now apply Exists_cons_tl.
Qed.

Lemma surrogate_not_encodable (r : list N) :
  Exists (fun c => is_surrogate c = true) r -> ~ encodable r.
Proof.
  intros Hex He. unfold encodable in He. rewrite Forall_forall in He.
  apply Exists_exists in Hex as (c & Hin & Hc).
  rewrite (He c Hin) in Hc. discriminate.
Qed.

(** X3.  The chunker raises [UnicodeEncodeError] exactly when some record
    holds a surrogate code point; on every other input it returns. *)
Theorem chunker_raises_on_surrogate (records : list (list N)) (max_bytes : Z) :
  chunk_records_by_size records max_bytes = Raise UnicodeEncodeError
  <-> Exists (fun r => Exists (fun c => is_surrogate c = true) r) records.
Proof.
  split.
  - intros Hr. induction records as [|r rest IH].
    + discriminate Hr.
    + destruct (surrogate_or_encodable r) as [He|Hs];
        [|now constructor].
      assert (Hrest : Forall encodable rest \/
                      Exists (fun r => Exists (fun c => is_surrogate c = true) r)
                             rest).
      { clear - rest. induction rest as [|x l [IHl|IHl]].
        - left. constructor.
        - destruct (surrogate_or_encodable x) as [Hx|Hx].
          + left. now constructor.
          + right. now constructor.
        - right. now apply Exists_cons_tl. }
      destruct Hrest as [Hall|Hex]; [|now apply Exists_cons_tl].
      destruct (chunker_spec (r :: rest) max_bytes) as (cs & Hrun & _).
      { now constructor. }
      rewrite Hrun in Hr. discriminate.
  - intros Hex.
    destruct (chunk_records_by_size records max_bytes) as [cs|e] eqn:E.
    + apply chunker_returns in E. rewrite Forall_forall in E.
      apply Exists_exists in Hex as (r & Hin & Hr).
      exfalso. exact (surrogate_not_encodable r Hr (E r Hin)).
    + now destruct e.
Qed.

Lemma loop_all_in_one (max_bytes : Z) (records : list (list N)) :
  forall c : list N,
  encodable c -> Forall encodable records ->
  size (c ++ concat records) <= max_bytes ->
  for_each (record_step max_bytes) records (Acc [] c (size c))
  = Ok (Acc [] (c ++ concat records) (size (c ++ concat records))).
Proof.
  induction records as [|r rest IH]; intros c Hc Henc Hle.
  - simpl. now rewrite app_nil_r.
  - inversion Henc as [|? ? Hr Hrest]; subst.
    simpl concat in *. rewrite !size_app in Hle.
    pose proof (size_nonneg c). pose proof (size_nonneg r).
    pose proof (size_nonneg (concat rest)).
    cbn [for_each].
    rewrite (record_step_fits max_bytes _ r (size r) (utf8_len_size r Hr))
      by lia.
    cbn [cur cur_bytes chunks].
    assert ((size c + size r >? max_bytes) = false) as ->
      by (rewrite Z.gtb_ltb; apply Z.ltb_ge; lia).
    cbn [andb]. rewrite bind_Ok, <- size_app, IH.
    + now rewrite <- app_assoc.
    + apply encodable_app. now split.
    + exact Hrest.
    + rewrite <- app_assoc, !size_app. lia.
Qed.

(** X4.  When the budget holds all the records together, the chunker
    returns their concatenation as a single chunk (and no chunk when the
    records are all empty). *)
Theorem one_chunk_when_budget_holds_all (records : list (list N))
  (max_bytes n : Z)
  (Hn : utf8_len (concat records) = Ok n) (Hle : n <= max_bytes) :
  chunk_records_by_size records max_bytes
  = Ok (if truthy (concat records) then [concat records] else []).
Proof.
  apply utf8_len_inv in Hn as [He ->].
  unfold chunk_records_by_size.
  change acc0 with (Acc [] [] (size [])).
  rewrite loop_all_in_one; [|constructor|now apply encodable_concat|exact Hle].
  rewrite bind_Ok. unfold push_current. cbn [cur chunks app].
  now destruct (truthy (concat records)).
Qed.

Lemma one_chunk_when_budget_holds_all_witness :
  utf8_len (concat (split_into_records doc2)) = Ok 30 /\ 30 <= 30
  /\ chunk_records_by_size (split_into_records doc2) 30 = Ok [doc2].
Proof.
  split; [reflexivity|]. split; [lia|].
  apply (one_chunk_when_budget_holds_all (split_into_records doc2) 30 30);
    [reflexivity|lia].
Defined.

Lemma lines_one_by_one (max_bytes : Z) (lines : list (list N)) :
  max_bytes <= 0 ->
  forall (o : list (list N)) (p : list N),
  p <> [] -> Forall encodable lines -> Forall (fun ln => ln <> []) lines ->
  for_each (line_step max_bytes) lines (Parts o p (size p))
  = Ok (Parts (o ++ removelast (p :: lines)) (last (p :: lines) [])
              (size (last (p :: lines) []))).
Proof.
  intros Hmax. induction lines as [|ln rest IH]; intros o p Hp Henc Hne.
  - simpl. now rewrite app_nil_r.
  - inversion Henc as [|? ? Hln Hrest]; subst.
    inversion Hne as [|? ? Hln0 Hrest0]; subst.
    cbn [for_each]. unfold line_step at 1.
    rewrite (utf8_len_size ln Hln), bind_Ok. cbn [part_b part out].
    pose proof (size_pos ln Hln0). pose proof (size_pos p Hp).
    assert ((size p + size ln >? max_bytes) = true) as ->
      by (rewrite Z.gtb_ltb; apply Z.ltb_lt; lia).
    assert (truthy p = true) as -> by now apply truthy_true.
    cbn [andb part_b part out]. rewrite bind_Ok.
    change ([] ++ ln) with ln. change (0 + size ln) with (size ln).
    rewrite (IH (o ++ [p]) ln Hln0 Hrest Hrest0).
    change (removelast (p :: ln :: rest)) with (p :: removelast (ln :: rest)).
    change (last (p :: ln :: rest) []) with (last (ln :: rest) []).
    now rewrite <- app_assoc.
Qed.

Lemma split_oversized_one_by_one (max_bytes : Z) (o : list (list N))
  (rec : list N) :
  max_bytes <= 0 -> encodable rec ->
  split_oversized max_bytes o rec = Ok (o ++ splitlines rec).
Proof.
  intros Hmax He. unfold split_oversized.
  pose proof (splitlines_encodable rec He) as Henc.
  pose proof (splitlines_nonempty rec) as Hne.
  destruct (splitlines rec) as [|ln rest].
  - simpl. now rewrite app_nil_r.
  - inversion Henc as [|? ? Hln Hrest]; subst.
    inversion Hne as [|? ? Hln0 Hrest0]; subst.
    cbn [for_each]. unfold line_step at 1.
    rewrite (utf8_len_size ln Hln), bind_Ok. cbn [part_b part out truthy].
    rewrite andb_false_r. cbn [part_b part out]. rewrite bind_Ok.
    change ([] ++ ln) with ln. change (0 + size ln) with (size ln).
    rewrite (lines_one_by_one max_bytes rest Hmax o ln Hln0 Hrest Hrest0).
    rewrite bind_Ok. cbn [part out].
    assert (Hlast : last (ln :: rest) [] <> []).
    { assert (Hin : In (last (ln :: rest) []) (ln :: rest)).
      { destruct (exists_last (l := ln :: rest)) as (l' & x & E);
          [discriminate|]. rewrite E, last_last. apply in_or_app. right.
        now left. }
      rewrite Forall_forall in Hne. now apply Hne. }
    apply truthy_true in Hlast. rewrite Hlast.
    rewrite <- app_assoc. f_equal. f_equal.
    symmetry. apply app_removelast_last. discriminate.
Qed.

(** X5.  Under a budget of zero or less every line of every record is a
    chunk of its own. *)
Theorem every_line_alone_without_budget (records : list (list N))
  (max_bytes : Z)
  (Henc : Forall encodable records) (Hmax : max_bytes <= 0) :
  chunk_records_by_size records max_bytes = Ok (flat_map splitlines records).
Proof.
  unfold chunk_records_by_size.
  assert (Hloop : forall o,
             for_each (record_step max_bytes) records (Acc o [] 0)
             = Ok (Acc (o ++ flat_map splitlines records) [] 0)).
  { induction records as [|r rest IH]; intros o.
    - simpl. now rewrite app_nil_r.
    - inversion Henc as [|? ? Hr Hrest]; subst.
      cbn [for_each flat_map]. unfold record_step.
      rewrite (utf8_len_size r Hr), bind_Ok.
      destruct (size r >? max_bytes) eqn:E.
      + change (push_current (Acc o [] 0)) with (Acc o [] 0).
        cbn [chunks cur cur_bytes].
        rewrite (split_oversized_one_by_one max_bytes o r Hmax Hr), !bind_Ok.
        rewrite (IH Hrest). now rewrite <- app_assoc.
      + rewrite Z.gtb_ltb in E. apply Z.ltb_ge in E.
        pose proof (size_nonneg r).
        assert (r = []) as -> by (apply size_zero; lia).
        cbn [cur cur_bytes chunks truthy]. rewrite andb_false_r.
        cbn [cur cur_bytes chunks app]. rewrite bind_Ok.
        change (0 + size []) with 0.
        rewrite (IH Hrest). reflexivity. }
  unfold acc0. rewrite (Hloop []), bind_Ok. reflexivity.
Qed.

Lemma every_line_alone_without_budget_witness :
  Forall encodable [py "ab\ncd\n"; []; py "x\r\ny"] /\ 0 <= 0
  /\ chunk_records_by_size [py "ab\ncd\n"; []; py "x\r\ny"] 0
     = Ok [py "ab\n"; py "cd\n"; py "x\r\n"; py "y"].
Proof.
  split; [repeat constructor|]. split; [lia|].
  apply (every_line_alone_without_budget
           [py "ab\ncd\n"; []; py "x\r\ny"] 0);
    [repeat constructor|lia].
Defined.

(** ** The chunker: whole records *)

Lemma not_fits_size (max_bytes : Z) (c : list N) :
  max_bytes < size c -> ~ fits max_bytes c.
Proof. intros Hlt Hf. apply fits_inv in Hf as [_ Hle]. lia. Qed.

(** The record loop on records that all fit: [g] is the group being
    filled, and the groups of the result start with a group that extends
    [g]. *)
Lemma pack_groups (max_bytes : Z) (rs : list (list N)) :
  forall (o : list (list N)) (g : list (list N)),
  Forall encodable rs -> Forall (fun r => size r <= max_bytes) rs ->
  Forall (fun r => r <> []) rs ->
  Forall encodable g -> Forall (fun r => r <> []) g ->
  g = [] \/ size (concat g) <= max_bytes ->
  exists all,
    for_each (record_step max_bytes) rs (Acc o (concat g) (size (concat g)))
    = Ok (Acc (o ++ map (@concat N) (removelast all))
              (concat (last all [])) (size (concat (last all []))))
    /\ all <> []
    /\ concat all = g ++ rs
    /\ (exists t, hd [] all = g ++ t)
    /\ Forall (fun gr => gr = [] \/ size (concat gr) <= max_bytes) all
    /\ (forall gr, In gr all -> gr = [] -> g = [] /\ rs = [])
    /\ greedy_chain max_bytes all.
Proof.
  induction rs as [|r rest IH]; intros o g Henc Hfit Hne Hgenc Hgne Hg.
  - exists [g]. simpl. rewrite !app_nil_r.
    split; [reflexivity|]. split; [discriminate|]. split; [reflexivity|].
    split; [exists []; now rewrite app_nil_r|].
    split; [constructor; [|constructor]; tauto|].
    split; [|tauto].
    intros gr [<-|[]] E. now split.
  - inversion Henc as [|? ? Hr Hrest]; subst.
    inversion Hfit as [|? ? Hrfit Hfit']; subst.
    inversion Hne as [|? ? Hr0 Hne']; subst.
    cbn [for_each].
    rewrite (record_step_fits max_bytes _ r (size r) (utf8_len_size r Hr) Hrfit).
    cbn [cur cur_bytes chunks]. rewrite bind_Ok.
    destruct ((size (concat g) + size r >? max_bytes) && truthy (concat g))
      eqn:Hc.
    + apply andb_prop in Hc as [Hgt Ht].
      rewrite Z.gtb_ltb in Hgt. apply Z.ltb_lt in Hgt.
      apply truthy_true in Ht.
      assert (Hg0 : g <> []) by (intros ->; now apply Ht).
      destruct (IH (o ++ [concat g]) [r] Hrest Hfit' Hne')
        as (all & Hrun & Hall & Hcat & (t & Hhd) & Hsz & Hnil & Hchain).
      { now constructor. }
      { now constructor. }
      { right. now rewrite concat_single. }
      rewrite concat_single in Hrun.
      exists (g :: all). destruct all as [|x all']; [congruence|].
      cbn [hd] in Hhd. subst x.
      change (removelast (g :: ([r] ++ t) :: all'))
        with (g :: removelast (([r] ++ t) :: all')).
      change (last (g :: ([r] ++ t) :: all') [])
        with (last (([r] ++ t) :: all') []).
      rewrite Hrun. split; [|split; [|split; [|split; [|split; [|split]]]]].
      * cbn [map]. now rewrite <- app_assoc.
      * discriminate.
      * change (g ++ concat (([r] ++ t) :: all') = g ++ r :: rest).
        rewrite Hcat. reflexivity.
      * exists []. cbn [hd]. now rewrite app_nil_r.
      * constructor; [|exact Hsz]. right. destruct Hg as [->|H]; [congruence|exact H].
      * intros gr [<-|Hin] E; [congruence|].
        destruct (Hnil gr Hin E) as [E' _]. discriminate.
      * cbn [greedy_chain hd app]. split; [|exact Hchain].
        apply not_fits_size. rewrite size_app. lia.
    + destruct (IH o (g ++ [r]) Hrest Hfit' Hne')
        as (all & Hrun & Hall & Hcat & (t & Hhd) & Hsz & Hnil & Hchain).
      { apply Forall_app. split; [assumption|now constructor]. }
      { apply Forall_app. split; [assumption|now constructor]. }
      { right. rewrite concat_snoc, size_app.
        apply andb_false_iff in Hc as [Hc|Hc].
        - rewrite Z.gtb_ltb in Hc. apply Z.ltb_ge in Hc. lia.
        - apply truthy_false in Hc. rewrite Hc. simpl. lia. }
      rewrite concat_snoc, size_app in Hrun.
      exists all. rewrite Hrun.
      split; [reflexivity|]. split; [exact Hall|].
      split; [rewrite Hcat, <- app_assoc; reflexivity|].
      split; [exists (r :: t); rewrite Hhd, <- app_assoc; reflexivity|].
      split; [exact Hsz|]. split; [|exact Hchain].
      intros gr Hin E. destruct (Hnil gr Hin E) as [E' _]. now destruct g.
Qed.

(** X6.  When every record is non-empty and fits the budget, no record is
    cut: the chunks are the concatenations of consecutive groups of whole
    records, every chunk fits the budget, and the packing is greedy, so
    that no chunk could have taken the record that follows it. *)
Theorem whole_records_are_kept (records : list (list N)) (max_bytes : Z)
  (Hfit : Forall (fits max_bytes) records)
  (Hne : Forall (fun r => r <> []) records) :
  exists gs,
    chunk_records_by_size records max_bytes = Ok (map (@concat N) gs)
    /\ concat gs = records
    /\ Forall (fun g => g <> [] /\ fits max_bytes (concat g)) gs
    /\ greedy_chain max_bytes gs.
Proof.
  destruct records as [|r0 rest].
  { exists []. repeat split; constructor. }
  assert (Henc : Forall encodable (r0 :: rest))
    by (eapply Forall_impl; [|exact Hfit]; intros r Hr; now apply fits_inv in Hr).
  assert (Hsz : Forall (fun r => size r <= max_bytes) (r0 :: rest))
    by (eapply Forall_impl; [|exact Hfit]; intros r Hr; now apply fits_inv in Hr).
  destruct (pack_groups max_bytes (r0 :: rest) [] [] Henc Hsz Hne)
    as (all & Hrun & Hall & Hcat & _ & Hgs & Hnil & Hchain);
    try constructor; [reflexivity|].
  simpl app in Hcat.
  assert (Hgne : forall gr, In gr all -> gr <> []).
  { intros gr Hin E. destruct (Hnil gr Hin E) as [_ E']. discriminate. }
  assert (Hel : forall gr, In gr all ->
                           Forall encodable gr /\ Forall (fun r => r <> []) gr).
  { intros gr Hin. rewrite !Forall_forall in *.
    split; intros r Hr; [apply Henc|apply Hne];
      rewrite <- Hcat; apply in_concat; now exists gr. }
  assert (Hlast : In (last all []) all).
  { destruct (exists_last Hall) as (l' & x & ->). rewrite last_last.
    apply in_or_app. right. now left. }
  exists all. unfold chunk_records_by_size.
  change acc0 with (Acc [] (@concat N []) (size (@concat N []))).
  rewrite Hrun, bind_Ok. unfold push_current. cbn [cur chunks app].
  assert (truthy (concat (last all [])) = true) as ->.
  { apply truthy_true, concat_nonempty; [apply Hel, Hlast|apply Hgne, Hlast]. }
  cbn [chunks]. split; [|split; [exact Hcat|split; [|exact Hchain]]].
  - rewrite (app_removelast_last [] Hall) at 3.
    now rewrite map_app.
  - rewrite Forall_forall in *. intros gr Hin. split; [now apply Hgne|].
    apply fits_size; [apply encodable_concat, Hel, Hin|].
    destruct (Hgs gr Hin) as [E|H]; [now apply Hgne in E|exact H].
Qed.

Lemma whole_records_are_kept_witness :
  Forall (fits 8) [py "abc"; py "defg"; py "hi"; py "jklmno"]
  /\ Forall (fun r => r <> []) [py "abc"; py "defg"; py "hi"; py "jklmno"]
  /\ exists gs,
       chunk_records_by_size [py "abc"; py "defg"; py "hi"; py "jklmno"] 8
       = Ok (map (@concat N) gs)
       /\ concat gs = [py "abc"; py "defg"; py "hi"; py "jklmno"]
       /\ Forall (fun g => g <> [] /\ fits 8 (concat g)) gs
       /\ greedy_chain 8 gs.
Proof.
  assert (H1 : Forall (fits 8) [py "abc"; py "defg"; py "hi"; py "jklmno"]).
  { repeat constructor.
    - exists 3. split; [reflexivity|lia].
    - exists 4. split; [reflexivity|lia].
    - exists 2. split; [reflexivity|lia].
    - exists 6. split; [reflexivity|lia]. }
  assert (H2 : Forall (fun r : list N => r <> [])
                      [py "abc"; py "defg"; py "hi"; py "jklmno"])
    by (repeat constructor; discriminate).
  split; [exact H1|]. split; [exact H2|].
  exact (whole_records_are_kept _ 8 H1 H2).
Defined.

(* ------------------------------------------------------------------ *)
(** * The part files *)

Section Decimal.

Local Open Scope nat_scope.

Lemma digits_fuel_indep (f1 : nat) :
  forall f2 n : nat, n < f1 -> n < f2 -> digits_fuel f1 n = digits_fuel f2 n.
Proof.
  induction f1 as [|f1 IH]; intros f2 n H1 H2; [lia|].
  destruct f2 as [|f2]; [lia|]. cbn [digits_fuel].
  destruct (Nat.ltb_spec n 10) as [Hlt|Hge]; [reflexivity|].
  assert (n / 10 < n) by (apply Nat.div_lt; lia).
  rewrite (IH f2 (n / 10)) by lia. reflexivity.
Qed.

(** [str_of_nat] by its digits. *)
Lemma str_of_nat_unfold (n : nat) :
  str_of_nat n
  = if Nat.ltb n 10 then [digit n]
    else str_of_nat (n / 10) ++ [digit (n mod 10)].
Proof.
  unfold str_of_nat. cbn [digits_fuel].
  destruct (Nat.ltb_spec n 10) as [Hlt|Hge]; [reflexivity|].
  assert (n / 10 < n) by (apply Nat.div_lt; lia).
  rewrite (digits_fuel_indep n (S (n / 10)) (n / 10)) by lia. reflexivity.
Qed.

Lemma nat_of_digits_snoc (s : list N) (c : N) :
  nat_of_digits (s ++ [c]) = 10 * nat_of_digits s + (N.to_nat c - 48).
Proof. unfold nat_of_digits. now rewrite fold_left_app. Qed.

Lemma digit_value (d : nat) : N.to_nat (digit d) - 48 = d.
Proof. unfold digit. lia. Qed.

(** Reading back what [str] wrote. *)
Lemma nat_of_digits_str (n : nat) : nat_of_digits (str_of_nat n) = n.
Proof.
  induction n as [n IH] using lt_wf_ind.
  rewrite str_of_nat_unfold.
  destruct (Nat.ltb_spec n 10) as [Hlt|Hge].
  - unfold nat_of_digits. cbn [fold_left]. rewrite digit_value. lia.
  - rewrite nat_of_digits_snoc, digit_value, IH by (apply Nat.div_lt; lia).
    symmetry. apply Nat.div_mod_eq.
Qed.

Lemma nat_of_digits_zeros (k : nat) (s : list N) :
  nat_of_digits (repeat 48%N k ++ s) = nat_of_digits s.
Proof.
  unfold nat_of_digits. rewrite fold_left_app. f_equal.
  induction k as [|k IH]; [reflexivity|]. cbn [repeat fold_left].
  exact IH.
Qed.

Lemma str_of_nat_digits (n : nat) :
  Forall (fun c => (48 <= c <= 57)%N) (str_of_nat n).
Proof.
  induction n as [n IH] using lt_wf_ind.
  rewrite str_of_nat_unfold.
  destruct (Nat.ltb_spec n 10) as [Hlt|Hge].
  - constructor; [unfold digit; lia|constructor].
  - apply Forall_app. split; [apply IH, Nat.div_lt; lia|].
    constructor; [|constructor].
    pose proof (Nat.mod_upper_bound n 10). unfold digit. lia.
Qed.

Lemma str_of_nat_length_pos (n : nat) : 1 <= length (str_of_nat n).
Proof.
  rewrite str_of_nat_unfold. destruct (Nat.ltb n 10); [simpl; lia|].
  rewrite length_app. cbn [length]. lia.
Qed.

(** A larger number has at least as many digits. *)
Lemma str_of_nat_length_mono (j : nat) :
  forall i : nat, i <= j -> length (str_of_nat i) <= length (str_of_nat j).
Proof.
  induction j as [j IH] using lt_wf_ind. intros i Hij.
  rewrite (str_of_nat_unfold i), (str_of_nat_unfold j).
  destruct (Nat.ltb_spec i 10) as [Hi|Hi].
  - destruct (Nat.ltb j 10); [simpl; lia|].
    rewrite length_app. cbn [length]. lia.
  - destruct (Nat.ltb_spec j 10) as [Hj|Hj]; [lia|].
    rewrite !length_app. cbn [length].
    assert (length (str_of_nat (i / 10)) <= length (str_of_nat (j / 10))).
    { apply IH; [apply Nat.div_lt; lia|]. apply Nat.Div0.div_le_mono. lia. }
    lia.
Qed.

(** On the digits of a number [zfill] only puts zeros in front. *)
Lemma zfill_str_of_nat (w n : nat) :
  zfill w (str_of_nat n)
  = repeat 48%N (w - length (str_of_nat n)) ++ str_of_nat n.
Proof.
  unfold zfill. pose proof (str_of_nat_digits n) as Hd.
  destruct (str_of_nat n) as [|c t]; [now rewrite app_nil_r|].
  inversion Hd as [|? ? Hc _]; subst.
  assert (N.eqb c 43 = false) as -> by (apply N.eqb_neq; lia).
  assert (N.eqb c 45 = false) as -> by (apply N.eqb_neq; lia).
  reflexivity.
Qed.

Lemma zfill_value (w n : nat) : nat_of_digits (zfill w (str_of_nat n)) = n.
Proof. now rewrite zfill_str_of_nat, nat_of_digits_zeros, nat_of_digits_str. Qed.

Lemma zfill_length (w n : nat) :
  length (zfill w (str_of_nat n)) = Nat.max w (length (str_of_nat n)).
Proof. rewrite zfill_str_of_nat, length_app, repeat_length. lia. Qed.

Lemma part_name_inj (prefix : list N) (d i j : nat) :
  part_name prefix d i = part_name prefix d j -> i = j.
Proof.
  unfold part_name. intros H.
  apply app_inv_head, app_inv_tail in H.
  rewrite <- (zfill_value d i), <- (zfill_value d j). now rewrite H.
Qed.

End Decimal.

(** ** What [main] writes *)

Lemma written_encodable (c : list N) : encodable c -> encodable (written c).
Proof.
  intros H. unfold written. destruct (negb (endswith_LF c)); [|exact H].
  apply encodable_app. split; [exact H|]. now constructor.
Qed.

Lemma written_size (c : list N) :
  size (written c) = size c + (if endswith_LF c then 0 else 1).
Proof.
  unfold written. destruct (endswith_LF c); cbn [negb]; [lia|].
  now rewrite size_app.
Qed.

Lemma write_parts_loop (prefix : list N) (d : nat)
  (items : list (nat * list N)) :
  forall parts0 : list part_file,
  Forall encodable (map snd items) ->
  for_each (write_part prefix d) items parts0
  = Ok (parts0
          ++ map (fun it => PartFile (part_name prefix d (fst it))
                                     (written (snd it))
                                     (size (written (snd it))))
                 items).
Proof.
  induction items as [|it rest IH]; intros parts0 Henc.
  - simpl. now rewrite app_nil_r.
  - inversion Henc as [|? ? Hit Hrest]; subst.
    cbn [for_each]. unfold write_part at 1.
    rewrite (utf8_len_size _ (written_encodable _ Hit)), !bind_Ok.
    rewrite (IH _ Hrest). cbn [map]. now rewrite <- app_assoc.
Qed.

Lemma map_fst_combine {A B} (l1 : list A) :
  forall l2 : list B,
  length l1 = length l2 -> map fst (combine l1 l2) = l1.
Proof.
  induction l1 as [|a l1 IH]; intros [|b l2] H; try discriminate;
    [reflexivity|].
  simpl. f_equal. apply IH. now injection H.
Qed.

Lemma map_snd_combine {A B} (l1 : list A) :
  forall l2 : list B,
  length l1 = length l2 -> map snd (combine l1 l2) = l2.
Proof.
  induction l1 as [|a l1 IH]; intros [|b l2] H; try discriminate;
    [reflexivity|].
  simpl. f_equal. apply IH. now injection H.
Qed.

(** The parts [main] writes, in closed form. *)
Lemma write_parts_eq (prefix : list N) (chunks : list (list N)) :
  Forall encodable chunks ->
  write_parts prefix chunks
  = Ok (map (fun it => PartFile (part_name prefix (digits_for chunks) (fst it))
                                (written (snd it))
                                (size (written (snd it))))
            (combine (seq 1 (length chunks)) chunks)).
Proof.
  intros Henc. unfold write_parts. rewrite write_parts_loop; [reflexivity|].
  rewrite map_snd_combine; [exact Henc|apply length_seq].
Qed.

Lemma NoDup_map_inj {A B} (f : A -> B) (l : list A) :
  (forall x y, f x = f y -> x = y) -> NoDup l -> NoDup (map f l).
Proof.
  intros Hinj. induction 1 as [|a l Hin Hnd IH]; simpl; constructor; auto.
  intros H. apply in_map_iff in H as (x & Hx & Hxl).
  apply Hinj in Hx. now subst.
Qed.

Lemma part_name_length (prefix : list N) (chunks : list (list N)) (idx : nat) :
  (idx <= length chunks)%nat ->
  length (part_name prefix (digits_for chunks) idx)
  = (length prefix + digits_for chunks + 3)%nat.
Proof.
  intros Hle. unfold part_name. rewrite !length_app, zfill_length.
  pose proof (str_of_nat_length_mono (length chunks) idx Hle).
  unfold digits_for in *. change (length (py ".md")) with 3%nat. lia.
Qed.

(** X7.  [main] writes one part per chunk; the part names are pairwise
    distinct, so that no part overwrites another, and they all have the
    same length: the prefix, the zero-padded index and [.md]. *)
Theorem part_names_distinct (prefix : list N) (chunks : list (list N))
  (Henc : Forall encodable chunks) :
  exists files,
    write_parts prefix chunks = Ok files
    /\ length files = length chunks
    /\ NoDup (map file_name files)
    /\ Forall (fun f => length (file_name f)
                        = (length prefix + digits_for chunks + 3)%nat)
              files.
Proof.
  rewrite (write_parts_eq prefix chunks Henc). eexists. split; [reflexivity|].
  split; [|split].
  - rewrite length_map, length_combine, length_seq. lia.
  - rewrite map_map. cbn [file_name].
    rewrite <- (map_map fst (part_name prefix (digits_for chunks))).
    rewrite map_fst_combine by apply length_seq.
    apply NoDup_map_inj; [apply part_name_inj|apply seq_NoDup].
  - apply Forall_map, Forall_forall. intros [idx c] Hin. cbn [file_name fst].
    apply part_name_length. apply in_combine_l, in_seq in Hin. lia.
Qed.

Lemma part_names_distinct_witness :
  Forall encodable [py "a\n"; py "b"; py "c\n"]
  /\ exists files,
       write_parts (py "part_") [py "a\n"; py "b"; py "c\n"] = Ok files
       /\ length files = 3%nat
       /\ NoDup (map file_name files)
       /\ Forall (fun f => length (file_name f) = (5 + 4 + 3)%nat) files.
Proof.
  split; [repeat constructor|].
  apply (part_names_distinct (py "part_") [py "a\n"; py "b"; py "c\n"]).
  repeat constructor.
Defined.

(** X8.  Each part holds its chunk with the newline rule applied, and the
    byte count recorded for it is the encoded length of the chunk, plus
    one when a newline had to be appended: a part may pass the budget its
    chunk respects by one byte. *)
Theorem part_bytes (prefix : list N) (chunks : list (list N))
  (Henc : Forall encodable chunks) :
  exists files,
    write_parts prefix chunks = Ok files
    /\ Forall2 (fun c f =>
                  file_text f = written c
                  /\ exists n, utf8_len c = Ok n
                               /\ utf8_len (file_text f) = Ok (file_bytes f)
                               /\ file_bytes f
                                  = n + (if endswith_LF c then 0 else 1))
               chunks files.
Proof.
  rewrite (write_parts_eq prefix chunks Henc). eexists. split; [reflexivity|].
  generalize (digits_for chunks) as d. generalize 1%nat as start.
  induction Henc as [|c rest Hc Hrest IH]; intros start d; [constructor|].
  cbn [length seq combine map]. constructor; [|apply IH].
  cbn [file_text file_bytes snd]. split; [reflexivity|].
  exists (size c). split; [now apply utf8_len_size|].
  split; [apply utf8_len_size; now apply written_encodable|].
  apply written_size.
Qed.

Lemma part_bytes_witness :
  Forall encodable [py "a\n"; py "b"]
  /\ exists files,
       write_parts (py "part_") [py "a\n"; py "b"] = Ok files
       /\ Forall2 (fun c f =>
                     file_text f = written c
                     /\ exists n, utf8_len c = Ok n
                                  /\ utf8_len (file_text f) = Ok (file_bytes f)
                                  /\ file_bytes f
                                     = n + (if endswith_LF c then 0 else 1))
                  [py "a\n"; py "b"] files.
Proof.
  split; [repeat constructor|].
  apply (part_bytes (py "part_") [py "a\n"; py "b"]).
  repeat constructor.
Defined.

(** ** Part names in order *)

Section NameOrder.

Local Open Scope nat_scope.

Lemma str_ltb_irrefl (a : list N) : str_ltb a a = false.
Proof.
  induction a as [|x a IH]; [reflexivity|]. cbn [str_ltb].
  now rewrite N.ltb_irrefl, IH, andb_false_r.
Qed.

Lemma str_ltb_app_head (p a b : list N) :
  str_ltb (p ++ a) (p ++ b) = str_ltb a b.
Proof.
  induction p as [|x p IH]; [reflexivity|]. cbn [app str_ltb].
  now rewrite N.ltb_irrefl, N.eqb_refl, IH.
Qed.

Lemma str_ltb_app_tail (s : list N) (a : list N) :
  forall b : list N,
  length a = length b -> str_ltb a b = true ->
  str_ltb (a ++ s) (b ++ s) = true.
Proof.
  induction a as [|x a IH]; intros [|y b] Hlen Hlt; try discriminate.
  cbn [app str_ltb] in *. destruct (N.ltb x y); [reflexivity|].
  cbn [orb] in *. apply andb_prop in Hlt as [-> Hlt]. cbn [andb].
  apply IH; [now injection Hlen|exact Hlt].
Qed.

Lemma fold_digits_acc (t : list N) :
  forall acc : nat,
  fold_left (fun a c => 10 * a + (N.to_nat c - 48)) t acc
  = acc * 10 ^ length t + nat_of_digits t.
Proof.
  unfold nat_of_digits.
  induction t as [|c t IH]; intros acc; cbn [fold_left length].
  - rewrite Nat.pow_0_r. lia.
  - rewrite IH, (IH (10 * 0 + (N.to_nat c - 48))), Nat.pow_succ_r'. lia.
Qed.

Lemma nat_of_digits_cons (c : N) (t : list N) :
  nat_of_digits (c :: t) = (N.to_nat c - 48) * 10 ^ length t + nat_of_digits t.
Proof.
  unfold nat_of_digits at 1. cbn [fold_left]. rewrite fold_digits_acc. lia.
Qed.

Lemma nat_of_digits_bound (t : list N) :
  Forall (fun c => (48 <= c <= 57)%N) t -> nat_of_digits t < 10 ^ length t.
Proof.
  induction 1 as [|c t Hc Ht IH].
  - cbn. lia.
  - rewrite nat_of_digits_cons. cbn [length]. rewrite Nat.pow_succ_r'.
    assert (N.to_nat c - 48 <= 9) by lia. nia.
Qed.

(** Digit strings of one length compare as the numbers they stand for. *)
Lemma digits_lt_lex (a : list N) :
  forall b : list N,
  length a = length b ->
  Forall (fun c => (48 <= c <= 57)%N) a ->
  Forall (fun c => (48 <= c <= 57)%N) b ->
  nat_of_digits a < nat_of_digits b -> str_ltb a b = true.
Proof.
  induction a as [|x a IH]; intros [|y b] Hlen Ha Hb Hlt; try discriminate.
  - cbn in Hlt. lia.
  - inversion Ha as [|? ? Hx Ha']; subst. inversion Hb as [|? ? Hy Hb']; subst.
    injection Hlen as Hlen. rewrite !nat_of_digits_cons, <- Hlen in Hlt.
    pose proof (nat_of_digits_bound a Ha').
    pose proof (nat_of_digits_bound b Hb') as Hbb. rewrite <- Hlen in Hbb.
    cbn [str_ltb]. destruct (N.ltb_spec x y) as [Hxy|Hxy]; [reflexivity|].
    cbn [orb]. assert (x = y) as ->.
    { destruct (N.eq_dec x y) as [E|E]; [exact E|exfalso].
      assert (N.to_nat y - 48 + 1 <= N.to_nat x - 48) by lia. nia. }
    rewrite N.eqb_refl. cbn [andb]. apply IH; auto. lia.
Qed.

Lemma zfill_digits (w n : nat) :
  Forall (fun c => (48 <= c <= 57)%N) (zfill w (str_of_nat n)).
Proof.
  rewrite zfill_str_of_nat. apply Forall_app. split.
  - apply Forall_forall. intros c Hc. apply repeat_spec in Hc. lia.
  - apply str_of_nat_digits.
Qed.

Lemma part_name_lt (prefix : list N) (chunks : list (list N)) (i j : nat) :
  i < j -> j <= length chunks ->
  str_ltb (part_name prefix (digits_for chunks) i)
          (part_name prefix (digits_for chunks) j) = true.
Proof.
  intros Hij Hj. unfold part_name. rewrite str_ltb_app_head.
  assert (Hlen : forall k, k <= length chunks ->
                           length (zfill (digits_for chunks) (str_of_nat k))
                           = digits_for chunks).
  { intros k Hk. rewrite zfill_length.
    pose proof (str_of_nat_length_mono (length chunks) k Hk).
    unfold digits_for in *. lia. }
  apply str_ltb_app_tail; [rewrite !Hlen by lia; reflexivity|].
  apply digits_lt_lex; try apply zfill_digits.
  - rewrite !Hlen by lia. reflexivity.
  - now rewrite !zfill_value.
Qed.

Lemma map_seq_sorted {B} (R : B -> B -> Prop) (f : nat -> B) (n : nat) :
  forall start : nat,
  (forall i j, start <= i -> i < j -> j < start + n -> R (f i) (f j)) ->
  StronglySorted R (map f (seq start n)).
Proof.
  induction n as [|n IH]; intros start HR; [constructor|].
  cbn [seq map]. constructor.
  - apply IH. intros i j Hi Hij Hj. apply HR; lia.
  - apply Forall_map, Forall_forall. intros j Hj. apply in_seq in Hj.
    apply HR; lia.
Qed.

End NameOrder.

(** X9.  The part names increase in the order of the strings: a listing of
    the output directory sorted by name shows the parts in the order they
    were written. *)
Theorem part_names_sorted (prefix : list N) (chunks : list (list N))
  (Henc : Forall encodable chunks) :
  exists files,
    write_parts prefix chunks = Ok files
    /\ StronglySorted (fun a b => str_ltb a b = true) (map file_name files).
Proof.
  rewrite (write_parts_eq prefix chunks Henc). eexists. split; [reflexivity|].
  rewrite map_map. cbn [file_name].
  rewrite <- (map_map fst (part_name prefix (digits_for chunks))).
  rewrite map_fst_combine by apply length_seq.
  apply map_seq_sorted. intros i j Hi Hij Hj.
  apply part_name_lt; lia.
Qed.

Lemma part_names_sorted_witness :
  Forall encodable [py "a\n"; py "b"; py "c\n"]
  /\ exists files,
       write_parts (py "part_") [py "a\n"; py "b"; py "c\n"] = Ok files
       /\ StronglySorted (fun a b => str_ltb a b = true)
                         (map file_name files).
Proof.
  split; [repeat constructor|].
  apply (part_names_sorted (py "part_") [py "a\n"; py "b"; py "c\n"]).
  repeat constructor.
Defined.

(** ** Part files that concatenate back *)

Lemma endswith_LF_app (a b : list N) :
  b <> [] -> endswith_LF (a ++ b) = endswith_LF b.
Proof.
  intros Hb. unfold endswith_LF. rewrite rev_app_distr.
  destruct (rev b) as [|c t] eqn:E; [|reflexivity].
  apply (f_equal (@rev N)) in E. rewrite rev_involutive in E. now subst.
Qed.

Lemma endswith_LF_nonempty (s : list N) : endswith_LF s = true -> s <> [].
Proof. intros H ->. discriminate. Qed.

Lemma endswith_LF_cons (c : N) (t : list N) :
  t <> [] -> endswith_LF (c :: t) = endswith_LF t.
Proof. intros Ht. now apply (endswith_LF_app [c] t). Qed.

Lemma endswith_blank_LF (r : list N) :
  endswith r (py "\n\n") = true -> endswith_LF r = true.
Proof.
  unfold endswith, endswith_LF. change (rev (py "\n\n")) with [LF; LF].
  destruct (rev r) as [|c t]; [discriminate|]. cbn [startswith].
  intros H. apply andb_prop in H as [H _]. now rewrite N.eqb_sym.
Qed.

(** With the newline as the only terminator, and one at the end, every
    line ends with a newline. *)
Lemma splitlines_end_LF (s : list N) :
  lf_only s -> endswith_LF s = true ->
  Forall (fun ln => endswith_LF ln = true) (splitlines s).
Proof.
  induction s as [|c t IH]; intros Hlf Hend; [constructor|].
  inversion Hlf as [|? ? Hc Ht]; subst. cbn [splitlines].
  assert (Htail : t <> [] -> Forall (fun ln => endswith_LF ln = true)
                                    (splitlines t)).
  { intros Hne. apply IH; [exact Ht|]. now rewrite <- (endswith_LF_cons c t). }
  destruct (is_linebreak c) eqn:E.
  - rewrite (Hc eq_refl) in *. destruct t as [|d t'].
    + repeat constructor.
    + change (N.eqb LF CR) with false. cbn [andb].
      constructor; [reflexivity|]. apply Htail. discriminate.
  - destruct (splitlines t) as [|l ls] eqn:El.
    + assert (t = []) as -> by (rewrite <- (concat_splitlines t), El; reflexivity).
      exfalso. unfold endswith_LF in Hend. cbn in Hend.
      apply N.eqb_eq in Hend. subst c. discriminate E.
    + assert (Hne : t <> []) by (intros ->; discriminate El).
      specialize (Htail Hne). inversion Htail as [|? ? Hl Hls]; subst.
      constructor; [|exact Hls].
      rewrite endswith_LF_cons; [exact Hl|].
      now apply endswith_LF_nonempty.
Qed.

Lemma concat_end_LF (g : list (list N)) :
  g <> [] -> Forall (fun ln => endswith_LF ln = true) g ->
  endswith_LF (concat g) = true.
Proof.
  intros Hg Hall. destruct (exists_last Hg) as (g' & x & ->).
  apply Forall_app in Hall as [_ Hx]. inversion Hx as [|? ? Hx' _]; subst.
  rewrite concat_snoc, endswith_LF_app; [exact Hx'|].
  now apply endswith_LF_nonempty.
Qed.

(** Records that end with a newline and hold no other terminator give
    chunks that end with a newline. *)
Lemma chunks_end_LF (max_bytes : Z) (records : list (list N)) :
  forall a : acc,
  Forall lf_only records ->
  Forall (fun r => endswith_LF r = true) records ->
  cur a = [] \/ endswith_LF (cur a) = true ->
  Forall (fun c => endswith_LF c = true) (chunks a) ->
  forall a', for_each (record_step max_bytes) records a = Ok a' ->
  (cur a' = [] \/ endswith_LF (cur a') = true)
  /\ Forall (fun c => endswith_LF c = true) (chunks a').
Proof.
  induction records as [|r rest IH]; intros a Hlf Hend Hcur Hch a' Hrun.
  - injection Hrun as <-. now split.
  - inversion Hlf as [|? ? Hrlf Hlf']; subst.
    inversion Hend as [|? ? Hrend Hend']; subst.
    cbn [for_each] in Hrun. apply bind_inv in Hrun as (a1 & Hstep & Hrun).
    destruct (utf8_len r) as [n|e] eqn:Hn;
      [|unfold record_step in Hstep; rewrite Hn in Hstep; discriminate].
    apply (IH a1 Hlf' Hend'); [| |exact Hrun].
    + destruct (Z_le_gt_dec n max_bytes) as [Hle|Hgt].
      * rewrite (record_step_fits max_bytes a r n Hn Hle) in Hstep.
        injection Hstep as <-.
        destruct ((cur_bytes a + n >? max_bytes) && truthy (cur a));
          cbn [cur]; right; [exact Hrend|].
        rewrite endswith_LF_app; [exact Hrend|].
        now apply endswith_LF_nonempty.
      * destruct (record_step_oversized max_bytes r n Hn) as (gs & Hs & _);
          [lia|]. rewrite Hs in Hstep. injection Hstep as <-. now left.
    + destruct (Z_le_gt_dec n max_bytes) as [Hle|Hgt].
      * rewrite (record_step_fits max_bytes a r n Hn Hle) in Hstep.
        injection Hstep as <-.
        destruct ((cur_bytes a + n >? max_bytes) && truthy (cur a)) eqn:Hc;
          cbn [chunks]; [|exact Hch].
        apply Forall_app. split; [exact Hch|]. constructor; [|constructor].
        apply andb_prop in Hc as [_ Ht]. apply truthy_true in Ht.
        destruct Hcur as [E|E]; [contradiction|exact E].
      * destruct (record_step_oversized max_bytes r n Hn)
          as (gs & Hs & Hcat & Hgs); [lia|].
        rewrite Hs in Hstep. injection Hstep as <-. cbn [chunks].
        apply Forall_app. split; [exact Hch|]. apply Forall_app. split.
        -- destruct (truthy (cur a)) eqn:Ht; [|constructor].
           apply truthy_true in Ht. constructor; [|constructor].
           destruct Hcur as [E|E]; [contradiction|exact E].
        -- pose proof (splitlines_end_LF r Hrlf Hrend) as Hlines.
           rewrite <- Hcat in Hlines. apply Forall_map, Forall_forall.
           intros g Hg. rewrite Forall_forall in Hgs.
           apply concat_end_LF; [apply (Hgs g Hg)|].
           apply Forall_forall. intros ln Hln.
           rewrite Forall_forall in Hlines. apply Hlines, in_concat.
           now exists g.
Qed.

Lemma slice_Forall (P : N -> Prop) (md : list N) (a b : Z) :
  Forall P md -> Forall P (slice md a b).
Proof.
  intros H. unfold slice.
  set (i := Z.to_nat (clamp (len md) a)). set (k := Z.to_nat _).
  rewrite <- (firstn_skipn i md) in H. apply Forall_app in H as [_ H].
  rewrite <- (firstn_skipn k (skipn i md)) in H.
  now apply Forall_app in H as [H _].
Qed.

Lemma records_from_lf_only (md : list N) (starts : list Z) :
  lf_only md -> Forall lf_only (records_from md starts).
Proof.
  intros H. induction starts as [|st rest IH]; simpl; constructor; auto.
  now apply slice_Forall.
Qed.

Lemma records_from_end_LF (md : list N) (starts : list Z) :
  endswith_LF md = true ->
  StronglySorted Z.lt starts ->
  Forall (start_ok md) starts ->
  Forall (fun q => q + 8 <= len md) starts ->
  Forall (fun r => endswith_LF r = true) (records_from md starts).
Proof.
  intros Hend Hs Hok Hb.
  destruct (records_from_shape md starts Hs Hok Hb) as (_ & Hhead & Hblank).
  destruct starts as [|s0 rest]; [constructor|].
  assert (Hne : records_from md (s0 :: rest) <> []) by discriminate.
  rewrite (app_removelast_last [] Hne). apply Forall_app. split.
  - eapply Forall_impl; [|exact Hblank]. intros r. apply endswith_blank_LF.
  - constructor; [|constructor].
    assert (Hlast : exists st, In st (s0 :: rest)
                               /\ last (records_from md (s0 :: rest)) []
                                  = slice md st (len md)).
    { clear. revert s0. induction rest as [|e rest IH]; intros s0.
      - exists s0. split; [now left|reflexivity].
      - destruct (IH e) as (st & Hin & E). exists st. split; [now right|].
        exact E. }
    destruct Hlast as (st & Hin & ->).
    rewrite Forall_forall in Hok, Hb.
    pose proof (header_at_nonneg md st (proj1 (Hok st Hin))) as H0.
    pose proof (Hb st Hin) as H8. unfold len in H8.
    replace st with (Z.of_nat (Z.to_nat st)) by lia.
    rewrite slice_to_end.
    rewrite <- (firstn_skipn (Z.to_nat st) md) in Hend.
    rewrite endswith_LF_app in Hend; [exact Hend|].
    intros E. apply (f_equal (@length N)) in E.
    rewrite length_skipn in E. simpl in E. lia.
Qed.

Lemma written_id (c : list N) : endswith_LF c = true -> written c = c.
Proof. intros H. unfold written. now rewrite H. Qed.

(** X10.  A document that can be encoded, whose only line terminator is
    the newline, that ends with a newline and has no text before its first
    record header, is the concatenation of its part files: every chunk
    ends with a newline and is written unchanged. *)
Theorem part_files_concatenate_back (md : list N) (max_bytes : Z)
  (Henc : encodable md) (Hlf : lf_only md) (Hend : endswith_LF md = true)
  (Hpre : find_record_starts md = [] \/ In 0 (find_record_starts md)) :
  exists files,
    part_files md max_bytes = Ok files
    /\ chunks_of md max_bytes = Ok files
    /\ concat files = md.
Proof.
  destruct (roundtrip_without_preamble md max_bytes Henc Hpre)
    as (cs & Hrun & Hcat).
  assert (Hrecs : Forall lf_only (split_into_records md)
                  /\ Forall (fun r => endswith_LF r = true)
                            (split_into_records md)).
  { unfold split_into_records, split_into_records_with.
    fold (find_record_starts md).
    pose proof (find_record_starts_sorted md) as Hs.
    pose proof (find_record_starts_ok md) as Hok.
    pose proof (find_record_starts_room md) as Hb.
    destruct (find_record_starts md) as [|s0 rest].
    - split; now constructor.
    - rewrite slice_records_rec. split.
      + now apply records_from_lf_only.
      + now apply records_from_end_LF. }
  destruct Hrecs as [Hrlf Hrend].
  assert (Hall : Forall (fun c => endswith_LF c = true) cs).
  { unfold chunks_of, chunk_records_by_size in Hrun.
    apply bind_inv in Hrun as (a' & Hloop & Hcs). injection Hcs as <-.
    destruct (chunks_end_LF max_bytes (split_into_records md) acc0 Hrlf Hrend)
      with (a' := a') as [Hcur Hch]; [now left|constructor|exact Hloop|].
    unfold push_current. destruct (truthy (cur a')) eqn:Ht; [|exact Hch].
    cbn [chunks]. apply Forall_app. split; [exact Hch|].
    constructor; [|constructor].
    apply truthy_true in Ht. destruct Hcur as [E|E]; [contradiction|exact E]. }
  exists cs. split; [|now split].
  unfold part_files. rewrite Hrun, bind_Ok. f_equal.
  clear - Hall. induction Hall as [|c l Hc Hl IH]; [reflexivity|].
  cbn [map]. now rewrite written_id, IH.
Qed.

Lemma part_files_concatenate_back_witness :
  encodable doc2 /\ lf_only doc2 /\ endswith_LF doc2 = true
  /\ (find_record_starts doc2 = [] \/ In 0 (find_record_starts doc2))
  /\ exists files,
       part_files doc2 20 = Ok files
       /\ chunks_of doc2 20 = Ok files
       /\ concat files = doc2.
Proof.
  assert (H1 : encodable doc2) by (repeat constructor).
  assert (H2 : lf_only doc2).
  { repeat constructor; intros H; try discriminate H; reflexivity. }
  assert (H3 : endswith_LF doc2 = true) by reflexivity.
  assert (H4 : find_record_starts doc2 = [] \/ In 0 (find_record_starts doc2))
    by (right; left; reflexivity).
  repeat (split; [assumption|]).
  exact (part_files_concatenate_back doc2 20 H1 H2 H3 H4).
Defined.

(* ------------------------------------------------------------------ *)
(** * Blocks and boundaries *)

Lemma startswith_app_l (p : list N) :
  forall s t : list N, startswith s p = true -> startswith (s ++ t) p = true.
Proof.
  induction p as [|c p IH]; intros s t H.
  - now destruct (s ++ t).
  - destruct s as [|d s]; [discriminate|]. cbn [app startswith] in *.
    apply andb_prop in H as [-> H]. cbn [andb]. now apply IH.
Qed.

Lemma startswith_self_app (p t : list N) : startswith (p ++ t) p = true.
Proof.
  induction p as [|c p IH]; [now destruct t|].
  cbn [app startswith]. now rewrite N.eqb_refl, IH.
Qed.

Lemma endswith_app (a p : list N) : endswith (a ++ p) p = true.
Proof. unfold endswith. rewrite rev_app_distr. apply startswith_self_app. Qed.

Lemma endswith_app_r (a b p : list N) :
  endswith b p = true -> endswith (a ++ b) p = true.
Proof.
  unfold endswith. rewrite rev_app_distr. apply startswith_app_l.
Qed.

Lemma endswith_blank_inv (pre : list N) :
  endswith pre (py "\n\n") = true -> exists t, pre = t ++ [LF; LF].
Proof.
  unfold endswith. change (rev (py "\n\n")) with [LF; LF].
  destruct (rev pre) as [|c [|d t]] eqn:E; try discriminate.
  - cbn. rewrite andb_false_r. discriminate.
  - cbn [startswith]. intros H.
    apply andb_prop in H as [Hc H]. apply andb_prop in H as [Hd _].
    apply N.eqb_eq in Hc, Hd. subst c d.
    exists (rev t). apply (f_equal (@rev N)) in E.
    rewrite rev_involutive in E. rewrite E. cbn [rev].
    now rewrite <- app_assoc.
Qed.

(** A marker that opens a block stands in the document where the block
    starts. *)
Lemma header_at_block (pre b post : list N) :
  header_at b 0 -> header_at (pre ++ b ++ post) (len pre).
Proof.
  intros (_ & Hs & c & Hc & Hw). unfold len. split; [lia|].
  rewrite Nat2Z.id. split.
  - rewrite skipn_app, skipn_all, Nat.sub_diag. cbn [app skipn].
    now apply startswith_app_l.
  - exists c. split; [|exact Hw].
    change (0 + 7) with (Z.of_nat 7) in Hc. rewrite char_at_nat in Hc.
    replace (Z.of_nat (length pre) + 7) with (Z.of_nat (length pre + 7))
      by lia.
    rewrite char_at_nat, nth_error_app2 by lia.
    replace (length pre + 7 - length pre)%nat with 7%nat by lia.
    rewrite nth_error_app1; [exact Hc|].
    apply nth_error_Some. congruence.
Qed.

Lemma blank_before_block (pre rest : list N) :
  endswith pre (py "\n\n") = true ->
  char_at (pre ++ rest) (len pre - 2) = Some LF
  /\ char_at (pre ++ rest) (len pre - 1) = Some LF.
Proof.
  intros H. apply endswith_blank_inv in H as (t & ->). unfold len.
  rewrite length_app. cbn [length].
  replace (Z.of_nat (length t + 2) - 2) with (Z.of_nat (length t)) by lia.
  replace (Z.of_nat (length t + 2) - 1) with (Z.of_nat (length t + 1)) by lia.
  rewrite !char_at_nat, <- !app_assoc.
  split.
  - rewrite nth_error_app2 by lia. now rewrite Nat.sub_diag.
  - rewrite nth_error_app2 by lia.
    now replace (length t + 1 - length t)%nat with 1%nat by lia.
Qed.

Lemma blocks_offsets_found (blocks : list (list N)) :
  forall pre : list N,
  pre = [] \/ endswith pre (py "\n\n") = true ->
  Forall block_shaped blocks ->
  forall q, In q (offsets (len pre) blocks) ->
            In q (find_record_starts (pre ++ concat blocks)).
Proof.
  induction blocks as [|b rest IH]; intros pre Hpre Hall q Hq; [contradiction|].
  inversion Hall as [|? ? [Hb Hbend] Hrest]; subst.
  cbn [offsets concat] in *. destruct Hq as [<-|Hq].
  - apply find_record_starts_In. destruct Hpre as [->|Hend].
    + left. split; [reflexivity|].
      exact (header_at_block [] b (concat rest) Hb).
    + right. destruct (blank_before_block pre (b ++ concat rest) Hend)
        as [H2 H1].
      split; [exact H2|]. split; [exact H1|]. now apply header_at_block.
  - rewrite app_assoc. apply IH; [right; now apply endswith_app_r|exact Hrest|].
    unfold len in *. rewrite length_app, Nat2Z.inj_add. exact Hq.
Qed.

(** X11.  In a document made of blocks that each open with a record-header
    marker and close with two newlines, the start of every block is a
    start [find_record_starts] reports: no record straddles two blocks. *)
Theorem block_starts_are_record_starts (blocks : list (list N))
  (Hall : Forall block_shaped blocks) :
  incl (offsets 0 blocks) (find_record_starts (concat blocks)).
Proof.
  intros q Hq.
  exact (blocks_offsets_found blocks [] (or_introl eq_refl) Hall q Hq).
Qed.

Lemma block_starts_are_record_starts_witness :
  Forall block_shaped
         [py "---\nid: 1\n---\nfoo\n\n"; py "---\nid:\n  k: v\n---\n\n\n"]
  /\ incl (offsets 0 [py "---\nid: 1\n---\nfoo\n\n";
                      py "---\nid:\n  k: v\n---\n\n\n"])
          (find_record_starts
             (concat [py "---\nid: 1\n---\nfoo\n\n";
                      py "---\nid:\n  k: v\n---\n\n\n"])).
Proof.
  assert (H : Forall block_shaped
                [py "---\nid: 1\n---\nfoo\n\n";
                 py "---\nid:\n  k: v\n---\n\n\n"]).
  { repeat constructor; try reflexivity; try discriminate.
    - exists 32%N. split; reflexivity.
    - exists 10%N. split; reflexivity. }
  split; [exact H|].
  exact (block_starts_are_record_starts _ H).
Defined.

(* ------------------------------------------------------------------ *)
(** * The exporter's blocks *)

Section Blocks.

Import Exporter.

Variable repr : value -> list N.

(** Induction on values, through the lists and dictionaries they hold. *)
Lemma value_nested_ind (P : value -> Prop) :
  P VNone -> (forall b, P (VBool b)) -> (forall z, P (VInt z)) ->
  (forall s, P (VStr s)) ->
  (forall l, Forall P l -> P (VList l)) ->
  (forall d, Forall (fun kv => P (snd kv)) d -> P (VDict d)) ->
  forall v, P v.
Proof.
  intros HN HB HI HS HL HD. fix IH 1. intros [|b|z|s|l|d].
  - exact HN.
  - apply HB.
  - apply HI.
  - apply HS.
  - apply HL. induction l as [|x l IHl]; constructor; [apply IH|exact IHl].
  - apply HD. induction d as [|[k v] d IHd]; constructor;
      [apply IH|exact IHd].
Qed.

Lemma ends_LF_snoc (a : list N) : endswith_LF (a ++ [LF]) = true.
Proof. now rewrite endswith_LF_app. Qed.

Lemma ends_LF_app (a b : list N) :
  endswith_LF b = true -> endswith_LF (a ++ b) = true.
Proof.
  intros H. rewrite endswith_LF_app; [exact H|].
  now apply endswith_LF_nonempty.
Qed.

(** A run of pieces that each end with a newline ends with a newline. *)
Lemma ends_LF_app_opt (a b : list N) :
  endswith_LF a = true -> b = [] \/ endswith_LF b = true ->
  endswith_LF (a ++ b) = true.
Proof.
  intros Ha [->|Hb]; [now rewrite app_nil_r|now apply ends_LF_app].
Qed.

Lemma split_on_nonempty (c : N) (s : list N) : split_on c s <> [].
Proof.
  destruct s as [|d t]; [discriminate|]. cbn [split_on].
  destruct (N.eqb d c); [discriminate|].
  destruct (split_on c t); discriminate.
Qed.

(** X12.  Whatever the value and the indentation, [yaml_like] returns text
    that ends with a newline (so it is never empty). *)
Theorem yaml_like_ends_with_newline (obj : value) :
  forall indent : nat, endswith_LF (yaml_like repr obj indent) = true.
Proof.
  induction obj as [|b|z|s|l IHl|d IHd] using value_nested_ind;
    intros indent; cbn [yaml_like].
  - now apply ends_LF_app.
  - rewrite app_assoc. apply ends_LF_snoc.
  - rewrite app_assoc. apply ends_LF_snoc.
  - destruct (contains LF (strip_LF (remove_char CR s))).
    + rewrite app_assoc. apply ends_LF_app, concat_end_LF.
      * pose proof (split_on_nonempty LF (strip_LF (remove_char CR s))).
        destruct (split_on LF (strip_LF (remove_char CR s)));
          [contradiction|discriminate].
      * apply Forall_map, Forall_forall. intros ln _.
        rewrite !app_assoc. apply ends_LF_snoc.
    + rewrite app_assoc. apply ends_LF_snoc.
  - destruct l as [|x l]; [now apply ends_LF_app|].
    assert (Hgo : forall l', Forall (fun v => forall i,
                                endswith_LF (yaml_like repr v i) = true) l' ->
              l' = [] \/
              endswith_LF
                ((fix items (l0 : list value) : list N :=
                    match l0 with
                    | [] => []
                    | item :: rest =>
                        match item with
                        | VList _ | VDict _ =>
                            spaces indent ++ py "-\n"
                              ++ yaml_like repr item (S indent)
                        | _ => spaces indent ++ py "- "
                                 ++ py_str repr item ++ [LF]
                        end ++ items rest
                    end) l') = true).
    { induction l' as [|y l' IH']; intros Hall; [now left|right].
      inversion Hall as [|? ? Hy Hl']; subst.
      apply ends_LF_app_opt; [|destruct (IH' Hl') as [->|E]; [now left|now right]].
      destruct y; try (rewrite !app_assoc; apply ends_LF_snoc);
        rewrite app_assoc; apply ends_LF_app, Hy. }
    destruct (Hgo (x :: l) IHl) as [E|E]; [discriminate|exact E].
  - destruct d as [|kv d]; [now apply ends_LF_app|].
    assert (Hgo : forall d', Forall (fun kv => forall i,
                                endswith_LF (yaml_like repr (snd kv) i) = true)
                                    d' ->
              d' = [] \/
              endswith_LF
                ((fix entries (d0 : list (list N * value)) : list N :=
                    match d0 with
                    | [] => []
                    | (k, v) :: rest =>
                        match v with
                        | VList _ | VDict _ =>
                            spaces indent ++ k ++ py ":\n"
                              ++ yaml_like repr v (S indent)
                        | _ => spaces indent ++ k ++ py ": "
                                 ++ strip (yaml_like repr v 0) ++ [LF]
                        end ++ entries rest
                    end) d') = true).
    { induction d' as [|[k v] d' IH']; intros Hall; [now left|right].
      inversion Hall as [|? ? Hv Hd']; subst. cbn [snd] in Hv.
      apply ends_LF_app_opt; [|destruct (IH' Hd') as [->|E]; [now left|now right]].
      destruct v; try (rewrite !app_assoc; apply ends_LF_snoc);
        rewrite !app_assoc; apply ends_LF_app, Hv. }
    destruct (Hgo (kv :: d) IHd) as [E|E]; [discriminate|exact E].
Qed.

End Blocks.

Section Rendering.

Import Exporter.

Variable repr : value -> list N.

(** The front matter of a dictionary whose first key is [id] opens with
    [id:] and a white-space character: a space before a scalar, a newline
    before a nested list or dictionary. *)
Lemma yaml_like_id_head (v : value) (rest : list (list N * value)) :
  exists c tail,
    is_space c = true
    /\ yaml_like repr (VDict ((py "id", v) :: rest)) 0
       = py "id:" ++ c :: tail.
Proof.
  destruct v;
    [exists 32%N|exists 32%N|exists 32%N|exists 32%N|exists 10%N|exists 10%N];
    eexists; (split; [reflexivity|]); cbn [yaml_like spaces repeat concat app];
    reflexivity.
Qed.

Lemma rendered_block_shaped (rec : list (list N * value)) :
  block_shaped (render_md_block repr rec).
Proof.
  unfold render_md_block. cbv zeta.
  match goal with
  | |- context [yaml_like repr (VDict ((py "id", ?v) :: ?rest)) 0] =>
      destruct (yaml_like_id_head v rest) as (c & tail & Hc & ->)
  end.
  split.
  - split; [lia|]. split; [reflexivity|].
    exists c. split; [reflexivity|exact Hc].
  - rewrite !app_assoc. apply endswith_app.
Qed.

(** X13.  Every block [render_md_block] returns opens with a record-header
    marker, the line [---] followed by [id:] and a white-space character,
    and closes with two newlines, whatever the record holds. *)
Theorem render_md_block_shape (rec : list (list N * value)) :
  header_at (render_md_block repr rec) 0
  /\ endswith (render_md_block repr rec) (py "\n\n") = true.
Proof. exact (rendered_block_shaped rec). Qed.

Lemma messages_md_blocks (recs : list (list (list N * value))) :
  Forall block_shaped (map (render_md_block repr) recs).
Proof.
  apply Forall_map, Forall_forall. intros rec _. apply rendered_block_shaped.
Qed.

(** X14.  The document the exporter writes goes through the splitter
    whole: the beginning of every exported block is a record start, and
    the chunks concatenate to the document, at any budget. *)
Theorem exported_document_splits_cleanly
  (recs : list (list (list N * value))) (max_bytes : Z)
  (Henc : encodable (messages_md repr recs)) :
  incl (offsets 0 (map (render_md_block repr) recs))
       (find_record_starts (messages_md repr recs))
  /\ exists cs,
       chunks_of (messages_md repr recs) max_bytes = Ok cs
       /\ concat cs = messages_md repr recs.
Proof.
  assert (Hoff : incl (offsets 0 (map (render_md_block repr) recs))
                      (find_record_starts (messages_md repr recs))).
  { intros q Hq. unfold messages_md.
    exact (blocks_offsets_found _ [] (or_introl eq_refl)
                                (messages_md_blocks recs) q Hq). }
  split; [exact Hoff|].
  apply roundtrip_without_preamble; [exact Henc|].
  destruct recs as [|rec rest]; [left; reflexivity|right].
  apply Hoff. now left.
Qed.

End Rendering.

Lemma exported_document_splits_cleanly_witness :
  encodable
    (Exporter.messages_md (fun _ => [])
       [[(py "id", Exporter.VInt 7); (py "text", Exporter.VStr (py "hello"))];
        [(py "id", Exporter.VInt 8); (py "text", Exporter.VNone)]])
  /\ incl
       (offsets 0
          (map (Exporter.render_md_block (fun _ => []))
             [[(py "id", Exporter.VInt 7);
               (py "text", Exporter.VStr (py "hello"))];
              [(py "id", Exporter.VInt 8); (py "text", Exporter.VNone)]]))
       (find_record_starts
          (Exporter.messages_md (fun _ => [])
             [[(py "id", Exporter.VInt 7);
               (py "text", Exporter.VStr (py "hello"))];
              [(py "id", Exporter.VInt 8); (py "text", Exporter.VNone)]]))
  /\ exists cs,
       chunks_of
         (Exporter.messages_md (fun _ => [])
            [[(py "id", Exporter.VInt 7);
              (py "text", Exporter.VStr (py "hello"))];
             [(py "id", Exporter.VInt 8); (py "text", Exporter.VNone)]])
         100 = Ok cs
       /\ concat cs
          = Exporter.messages_md (fun _ => [])
              [[(py "id", Exporter.VInt 7);
                (py "text", Exporter.VStr (py "hello"))];
               [(py "id", Exporter.VInt 8); (py "text", Exporter.VNone)]].
Proof.
  assert (H : encodable
                (Exporter.messages_md (fun _ => [])
                   [[(py "id", Exporter.VInt 7);
                     (py "text", Exporter.VStr (py "hello"))];
                    [(py "id", Exporter.VInt 8);
                     (py "text", Exporter.VNone)]])).
  { apply Forall_forall. intros c Hc. vm_compute in Hc.
    repeat (destruct Hc as [<-|Hc]; [reflexivity|]). contradiction. }
  split; [exact H|].
  exact (exported_document_splits_cleanly (fun _ => []) _ 100 H).
Defined.

(* ------------------------------------------------------------------ *)
(** * Directory names *)

Section SlugProperties.

Import Exporter.

Variable isalnum : N -> bool.

Lemma sub_runs_kept (s : list N) :
  forall in_run : bool,
  Forall (fun c => slug_keeps isalnum c = true) (sub_runs isalnum s in_run).
Proof.
  induction s as [|c t IH]; intros in_run; cbn [sub_runs]; [constructor|].
  destruct (slug_keeps isalnum c) eqn:E; [now constructor|].
  destruct in_run; [apply IH|]. constructor; [|apply IH].
  unfold slug_keeps. change (N.eqb 95 95) with true.
  now rewrite orb_true_r.
Qed.

Lemma sub_runs_id (s : list N) :
  Forall (fun c => slug_keeps isalnum c = true) s ->
  forall in_run, sub_runs isalnum s in_run = s.
Proof.
  induction 1 as [|c t Hc Ht IH]; intros in_run; cbn [sub_runs];
    [reflexivity|].
  now rewrite Hc, IH.
Qed.

Lemma slice_prefix (s : list N) (n : nat) :
  slice s 0 (Z.of_nat n) = firstn n s.
Proof.
  change 0 with (Z.of_nat 0). rewrite slice_nat.
  now rewrite Nat.sub_0_r.
Qed.

Lemma safe_slug_shape (s : list N) :
  safe_slug isalnum s <> []
  /\ (length (safe_slug isalnum s) <= 80)%nat
  /\ (safe_slug isalnum s = py "chat"
      \/ Forall (fun c => slug_keeps isalnum c = true) (safe_slug isalnum s)).
Proof.
  unfold safe_slug. cbv zeta.
  pose proof (sub_runs_kept (strip (or_empty s)) false) as Hk.
  destruct (sub_runs isalnum (strip (or_empty s)) false) as [|c t] eqn:E.
  - cbn [truthy]. repeat split; [discriminate|simpl; lia|now left].
  - cbn [truthy]. change 80 with (Z.of_nat 80). rewrite slice_prefix.
    split; [cbn [firstn]; discriminate|]. split.
    + rewrite length_firstn. lia.
    + right. rewrite <- (firstn_skipn 80 (c :: t)) in Hk.
      now apply Forall_app in Hk.
Qed.

(** X15.  [safe_slug] never returns the empty string, never more than 80
    characters, and, unless it falls back on ["chat"], only characters of
    the class it keeps: word characters, [-] and [.]. *)
Theorem safe_slug_is_safe (s : list N) :
  safe_slug isalnum s <> []
  /\ (length (safe_slug isalnum s) <= 80)%nat
  /\ (safe_slug isalnum s = py "chat"
      \/ Forall (fun c => slug_keeps isalnum c = true) (safe_slug isalnum s)).
Proof. exact (safe_slug_shape s). Qed.

Lemma lstrip_with_id (p : N -> bool) (s : list N) :
  match s with c :: _ => p c = false | [] => True end ->
  lstrip_with p s = s.
Proof. destruct s as [|c t]; [reflexivity|]. cbn. now intros ->. Qed.

Lemma strip_kept (s : list N) :
  (forall c, is_space c = true -> isalnum c = false) ->
  Forall (fun c => slug_keeps isalnum c = true) s ->
  strip s = s.
Proof.
  intros Hsp Hs.
  assert (Hns : forall c, slug_keeps isalnum c = true -> is_space c = false).
  { intros c Hc. destruct (is_space c) eqn:E; [|reflexivity].
    unfold slug_keeps in Hc. rewrite (Hsp c E) in Hc. cbn [orb] in Hc.
    apply orb_prop in Hc as [Hc|Hc]; [apply orb_prop in Hc as [Hc|Hc]|];
      apply N.eqb_eq in Hc; subst c; discriminate E. }
  unfold strip, strip_with.
  rewrite (lstrip_with_id is_space s).
  - rewrite lstrip_with_id; [apply rev_involutive|].
    destruct (rev s) as [|c t] eqn:E; [exact I|].
    apply Hns. rewrite Forall_forall in Hs. apply Hs.
    apply in_rev. rewrite E. now left.
  - destruct s as [|c t]; [exact I|]. inversion Hs; subst. now apply Hns.
Qed.

(** X16.  [safe_slug] is idempotent: a name it returned is returned
    unchanged when it is passed again.  (No white-space character is
    alphanumeric, and the letters of ["chat"] are.) *)
Theorem safe_slug_idempotent (s : list N)
  (Hspace : forall c, is_space c = true -> isalnum c = false)
  (Hchat : Forall (fun c => isalnum c = true) (py "chat")) :
  safe_slug isalnum (safe_slug isalnum s) = safe_slug isalnum s.
Proof.
  destruct (safe_slug_shape s) as (Hne & Hlen & Hk).
  assert (Hkept : Forall (fun c => slug_keeps isalnum c = true)
                         (safe_slug isalnum s)).
  { destruct Hk as [->|Hk]; [|exact Hk].
    eapply Forall_impl; [|exact Hchat]. intros c Hc. unfold slug_keeps.
    now rewrite Hc. }
  set (r := safe_slug isalnum s) in *.
  unfold safe_slug at 1. cbv zeta.
  rewrite or_empty_id, (strip_kept r Hspace Hkept), (sub_runs_id r Hkept).
  apply truthy_true in Hne. rewrite Hne.
  change 80 with (Z.of_nat 80). rewrite slice_prefix.
  now apply firstn_all2.
Qed.

End SlugProperties.

Lemma safe_slug_idempotent_witness :
  (forall c, is_space c = true -> N.leb 97 c && N.leb c 122 = false)
  /\ Forall (fun c => N.leb 97 c && N.leb c 122 = true) (py "chat")
  /\ Exporter.safe_slug (fun c => N.leb 97 c && N.leb c 122)
       (Exporter.safe_slug (fun c => N.leb 97 c && N.leb c 122)
                           (py "  my chat / 2024!  "))
     = Exporter.safe_slug (fun c => N.leb 97 c && N.leb c 122)
                          (py "  my chat / 2024!  ").
Proof.
  assert (H1 : forall c, is_space c = true -> N.leb 97 c && N.leb c 122 = false).
  { intros c Hc. destruct (N.leb 97 c && N.leb c 122) eqn:E; [|reflexivity].
    apply andb_prop in E as [E1 E2]. apply N.leb_le in E1, E2.
    unfold is_space in Hc.
    repeat (apply orb_prop in Hc as [Hc|Hc]);
      try (apply andb_prop in Hc as [Ha Hb]; apply N.leb_le in Ha, Hb; lia);
      try (apply N.eqb_eq in Hc; lia). }
  assert (H2 : Forall (fun c => N.leb 97 c && N.leb c 122 = true) (py "chat"))
    by (repeat constructor).
  split; [exact H1|]. split; [exact H2|].
  exact (safe_slug_idempotent (fun c => N.leb 97 c && N.leb c 122)
                              (py "  my chat / 2024!  ") H1 H2).
Defined.

(* ------------------------------------------------------------------ *)
(** * Byte lengths *)

Lemma size_bounds (s : list N) : len s <= size s <= 4 * len s.
Proof.
  unfold len. induction s as [|c t IH]; [simpl; lia|].
  cbn [size length]. pose proof (width_pos c). lia.
Qed.

(** X17.  [utf8_len] adds up over concatenation, which is what lets the
    chunker keep running byte counts, and the byte length of a string lies
    between its number of characters and four times that number. *)
Theorem utf8_len_adds_up (a b : list N) (na nb : Z)
  (Ha : utf8_len a = Ok na) (Hb : utf8_len b = Ok nb) :
  utf8_len (a ++ b) = Ok (na + nb)
  /\ len a <= na <= 4 * len a.
Proof.
  apply utf8_len_inv in Ha as [Hea ->]. apply utf8_len_inv in Hb as [Heb ->].
  split; [|apply size_bounds].
  rewrite <- size_app. apply utf8_len_size, encodable_app. now split.
Qed.

Lemma utf8_len_adds_up_witness :
  utf8_len [8364%N; 97%N] = Ok 4 /\ utf8_len [128512%N] = Ok 4
  /\ utf8_len ([8364%N; 97%N] ++ [128512%N]) = Ok (4 + 4)
  /\ len [8364%N; 97%N] <= 4 <= 4 * len [8364%N; 97%N].
Proof.
  split; [reflexivity|]. split; [reflexivity|].
  apply (utf8_len_adds_up [8364%N; 97%N] [128512%N] 4 4); reflexivity.
Defined.

(* ------------------------------------------------------------------ *)
(** * Records that fit are never cut *)

Lemma infix_nonempty (r c : list N) : r <> [] -> infix r c -> c <> [].
Proof.
  intros Hr (a & b & ->) E. apply app_eq_nil in E as [_ E].
  apply app_eq_nil in E as [E _]. contradiction.
Qed.

Lemma infix_app_r (r c d : list N) : infix r c -> infix r (c ++ d).
Proof.
  intros (a & b & ->). exists a, (b ++ d). now rewrite <- !app_assoc.
Qed.

Lemma held_step (max_bytes : Z) (a a1 : acc) (rec r : list N) :
  record_step max_bytes a rec = Ok a1 ->
  r <> [] ->
  held a r \/ (r = rec /\ fits max_bytes rec) ->
  held a1 r.
Proof.
  intros Hstep Hr Hcase.
  destruct (utf8_len rec) as [n|e] eqn:Hn;
    [|unfold record_step in Hstep; rewrite Hn in Hstep; discriminate].
  destruct (Z_le_gt_dec n max_bytes) as [Hle|Hgt].
  - rewrite (record_step_fits max_bytes a rec n Hn Hle) in Hstep.
    injection Hstep as <-.
    destruct ((cur_bytes a + n >? max_bytes) && truthy (cur a)).
    + destruct Hcase as [[(c & Hin & Hc)|Hcur]|[-> _]].
      * left. exists c. split; [cbn; apply in_or_app; now left|exact Hc].
      * left. exists (cur a). split; [cbn; apply in_or_app; right; now left|].
        exact Hcur.
      * right. exists [], []. cbn. now rewrite app_nil_r.
    + destruct Hcase as [[(c & Hin & Hc)|Hcur]|[-> _]].
      * left. exists c. now split.
      * right. cbn. now apply infix_app_r.
      * right. exists (cur a), []. cbn. now rewrite app_nil_r.
  - destruct (record_step_oversized max_bytes rec n Hn) as (gs & Hs & _);
      [lia|].
    rewrite Hs in Hstep. injection Hstep as <-.
    destruct Hcase as [[(c & Hin & Hc)|Hcur]|[-> Hf]].
    + left. exists c. split; [cbn; apply in_or_app; now left|exact Hc].
    + left. exists (cur a). split; [|exact Hcur]. cbn.
      apply in_or_app. right. apply in_or_app. left.
      pose proof (infix_nonempty r (cur a) Hr Hcur) as Hne.
      apply truthy_true in Hne. rewrite Hne. now left.
    + exfalso. destruct Hf as (m & Hm & Hle). rewrite Hn in Hm.
      injection Hm as <-. lia.
Qed.

Lemma held_loop (max_bytes : Z) (records : list (list N)) (r : list N) :
  r <> [] ->
  forall a a' : acc,
  for_each (record_step max_bytes) records a = Ok a' ->
  held a r \/ (In r records /\ fits max_bytes r) ->
  held a' r.
Proof.
  intros Hr. induction records as [|rec rest IH]; intros a a' Hrun Hcase.
  - injection Hrun as <-. destruct Hcase as [H|[[] _]]. exact H.
  - cbn [for_each] in Hrun. apply bind_inv in Hrun as (a1 & Hstep & Hrun).
    apply (IH a1 a' Hrun).
    destruct Hcase as [H|[[<-|Hin] Hf]].
    + left. apply (held_step max_bytes a a1 rec r Hstep Hr). now left.
    + left. apply (held_step max_bytes a a1 rec rec Hstep Hr). now right.
    + right. now split.
Qed.

(** X18.  A non-empty record that fits the budget is never cut, whatever
    the other records are: it lies whole inside one of the chunks. *)
Theorem fitting_record_is_not_cut (records : list (list N)) (max_bytes : Z)
  (r : list N)
  (Henc : Forall encodable records) (Hin : In r records)
  (Hfit : fits max_bytes r) (Hne : r <> []) :
  exists cs c,
    chunk_records_by_size records max_bytes = Ok cs
    /\ In c cs /\ infix r c.
Proof.
  destruct (chunker_spec records max_bytes Henc) as (cs & Hrun & _).
  exists cs. pose proof Hrun as Hrun'. unfold chunk_records_by_size in Hrun'.
  apply bind_inv in Hrun' as (a' & Hloop & Hcs). injection Hcs as <-.
  assert (Hheld : held a' r).
  { apply (held_loop max_bytes records r Hne acc0 a' Hloop). right.
    now split. }
  unfold push_current. destruct Hheld as [(c & Hc & Hi)|Hcur].
  - exists c. split; [exact Hrun|]. split; [|exact Hi].
    destruct (truthy (cur a')); [cbn; apply in_or_app; now left|exact Hc].
  - exists (cur a'). split; [exact Hrun|]. split; [|exact Hcur].
    pose proof (infix_nonempty r (cur a') Hne Hcur) as Hc.
    apply truthy_true in Hc. rewrite Hc. cbn. apply in_or_app. right.
    now left.
Qed.

Lemma fitting_record_is_not_cut_witness :
  Forall encodable [py "ab\n"; py "0123456789\nabcdefgh\n"; py "cd\n"]
  /\ In (py "cd\n") [py "ab\n"; py "0123456789\nabcdefgh\n"; py "cd\n"]
  /\ fits 12 (py "cd\n") /\ py "cd\n" <> []
  /\ exists cs c,
       chunk_records_by_size
         [py "ab\n"; py "0123456789\nabcdefgh\n"; py "cd\n"] 12 = Ok cs
       /\ In c cs /\ infix (py "cd\n") c.
Proof.
  assert (H1 : Forall encodable
                      [py "ab\n"; py "0123456789\nabcdefgh\n"; py "cd\n"])
    by (repeat constructor).
  assert (H2 : In (py "cd\n")
                  [py "ab\n"; py "0123456789\nabcdefgh\n"; py "cd\n"])
    by (right; right; left; reflexivity).
  assert (H3 : fits 12 (py "cd\n")) by (exists 3; split; [reflexivity|lia]).
  assert (H4 : py "cd\n" <> []) by discriminate.
  repeat (split; [assumption|]).
  exact (fitting_record_is_not_cut _ 12 _ H1 H2 H3 H4).
Defined.
